(** * A shallow embedding of the [fsm] state-machine engine

    The C++ sources define a variadic class template
    [StateMachine<States...>] that owns a [std::tuple<States...>] and keeps a
    [std::variant<States*...>] pointing at the current state, together with
    the action types [Nothing], [OneOf], [Maybe] and the handler fragment
    [ByDefault].  Engines are objects living at addresses; the current-state
    variant holds a raw pointer, so the embedding keeps an explicit heap of
    engines and models every member function as a computation over it. *)

From stdpp Require Import base option list gmap.
From Stdlib Require Import ZArith Lia.

Set Default Proof Using "Type".
Set Warnings "-register-all".

(** ** std::tuple<Ts...> *)

(** [std::tuple<Ts...>]: one value per listed type, as nested pairs. *)
Fixpoint tuple (Ts : list Type) : Type :=
  match Ts with
  | [] => unit
  | T :: Ts' => (T * tuple Ts')%type
  end.

(** [std::tuple_element_t<I, std::tuple<Ts...>>]; [unit] past the end. *)
Fixpoint tuple_element (I : nat) (Ts : list Type) {struct Ts} : Type :=
  match Ts with
  | [] => unit
  | T :: Ts' => match I with
                | 0 => T
                | S I' => tuple_element I' Ts'
                end
  end.

(** [std::get<I>(t)], reading. *)
Fixpoint get (I : nat) (Ts : list Type) {struct Ts}
  : tuple Ts -> tuple_element I Ts :=
  match Ts return tuple Ts -> tuple_element I Ts with
  | [] => fun _ => tt
  | T :: Ts' =>
      match I return tuple (T :: Ts') -> tuple_element I (T :: Ts') with
      | 0 => fun t => fst t
      | S I' => fun t => get I' Ts' (snd t)
      end
  end.

(** [std::get<I>(t) = v], writing through the reference [std::get] returns. *)
Fixpoint put (I : nat) (Ts : list Type) {struct Ts}
  : tuple_element I Ts -> tuple Ts -> tuple Ts :=
  match Ts return tuple_element I Ts -> tuple Ts -> tuple Ts with
  | [] => fun _ t => t
  | T :: Ts' =>
      match I return tuple_element I (T :: Ts') -> tuple (T :: Ts')
                     -> tuple (T :: Ts') with
      | 0 => fun v t => (v, snd t)
      | S I' => fun v t => (fst t, put I' Ts' v (snd t))
      end
  end.

Arguments get I {Ts} _.
Arguments put I {Ts} _ _.

(** ** Pointers and the current-state variant *)

(** Address of a [StateMachine] object. *)
Definition addr := positive.

(** A value of one of the pointer types [States*]: the null pointer, or the
    address of the element in slot [slot] of the tuple owned by the engine at
    [owner]. *)
Inductive pointer : Type :=
| nullptr
| address_of (owner : addr) (slot : nat).

(** [std::variant<States*...>]: the active alternative and the pointer held
    in it. *)
Record variant : Type := mkVariant { index : nat; held : pointer }.

Global Instance pointer_eq_dec : EqDecision pointer.
Proof. solve_decision. Defined.

Global Instance variant_eq_dec : EqDecision variant.
Proof. solve_decision. Defined.

(** ** namespace fsm *)

Module fsm.

(** *** tools/TupleTools.hpp *)

Module TupleTools.

(** [tuple_runtime_access_table::accessTemplateTuplele<Ind>(t, func)] with
    [func] the lambda of [runtime_get], [&element], and the return type the
    variant of pointers: the address of element [Ind] of tuple [t], stored in
    alternative [Ind]. The tuple is named by the engine that owns it. *)
Definition accessTemplateTuplele (Ind : nat) (t : addr) : variant :=
  mkVariant Ind (address_of t Ind).

(** [lookup_table = {{&accessTemplateTuplele<Idxs>...}}] for
    [Idxs = 0 .. table_size-1]. *)
Definition lookup_table (table_size : nat) : list (addr -> variant) :=
  map accessTemplateTuplele (seq 0 table_size).

(** [call_access_function(t, i, f, index_sequence)]: [table[i](t, f)].
    [std::array::operator[]] is unchecked; an index past the table has no
    defined result, which is [None] here. *)
Definition call_access_function (table_size : nat) (t : addr) (i : nat)
  : option variant :=
  match lookup_table table_size !! i with
  | Some access_function => Some (access_function t)
  | None => None
  end.

(** [runtime_get(t, i)], with [std::tuple_size_v<TemplateTuple>] passed as
    [tuple_size]. *)
Definition runtime_get (tuple_size : nat) (t : addr) (i : nat)
  : option variant :=
  call_access_function tuple_size t i.

End TupleTools.

(** The definitions of [TupleTools] above are those of the header at the
    engine's [std::tuple<States...>], whose element types are pairwise
    distinct. [TupleLike] below embeds the same header for every container
    it accepts: [std::tuple], [std::pair] and [std::array]. *)

Module TupleLike.

(** An element type, by name. *)
Definition type_id : Type := nat.

(** The containers [commonTemplateTuplele_access] is specialised for. *)
Inductive TemplateTuple : Type :=
| std_tuple (Ts : list type_id)
| std_pair (T1 T2 : type_id)
| std_array (T : type_id) (N : nat).

(** The types of the elements [std::get<0>(t)], [std::get<1>(t)], ... *)
Definition elements (c : TemplateTuple) : list type_id :=
  match c with
  | std_tuple Ts => Ts
  | std_pair T1 T2 => [T1; T2]
  | std_array T N => replicate N T
  end.

(** [std::tuple_size_v<TemplateTuple>]. *)
Definition tuple_size (c : TemplateTuple) : nat := length (elements c).

(** [commonTemplateTuplele_access_t<TemplateTuple>]: the pointee types of
    the alternatives of the variant returned: [std::variant<Ts*...>] for a
    tuple, [std::variant<T1*, T2*>] for a pair, [std::variant<T*>] for an
    array. *)
Definition commonTemplateTuplele_access (c : TemplateTuple) : list type_id :=
  match c with
  | std_tuple Ts => Ts
  | std_pair T1 T2 => [T1; T2]
  | std_array T N => [T]
  end.

(** The alternatives of [std::variant<alts*...>] of type [T*], by position,
    counting from [k]. *)
Fixpoint positions_of (T : type_id) (alts : list type_id) (k : nat)
  : list nat :=
  match alts with
  | [] => []
  | A :: alts' =>
      if decide (A = T) then k :: positions_of T alts' (S k)
      else positions_of T alts' (S k)
  end.

(** [accessTemplateTuplele<Ind>]: [return func(std::get<Ind>(t));] with
    [func] the lambda [&element] of [runtime_get]. The pointer, of type
    [T*] for [T] the type of element [Ind], is converted to the variant
    returned: the converting constructor activates the alternative of type
    [T*], and the function does not compile ([None]) when there is no
    element [Ind] or when [T*] is the type of more than one alternative. *)
Definition accessTemplateTuplele (c : TemplateTuple) (Ind : nat)
  : option (addr -> variant) :=
  match elements c !! Ind with
  | Some T =>
      match positions_of T (commonTemplateTuplele_access c) 0 with
      | [k] => Some (fun t => mkVariant k (address_of t Ind))
      | _ => None
      end
  | None => None
  end.

(** [lookup_table = {{&accessTemplateTuplele<Idxs>...}}]: taking the
    address of every accessor instantiates every one of them. *)
Definition lookup_table (c : TemplateTuple) : option (list (addr -> variant)) :=
  mapM (accessTemplateTuplele c) (seq 0 (tuple_size c)).

(** [call_access_function(t, i, f, index_sequence)]: [table[i](t, f)],
    read unchecked. *)
Definition call_access_function (c : TemplateTuple) (t : addr) (i : nat)
  : option variant :=
  match lookup_table c with
  | Some table =>
      match table !! i with
      | Some access_function => Some (access_function t)
      | None => None
      end
  | None => None
  end.

(** [runtime_get(t, i)] for a container [t] of type [c]. A variant without
    alternatives, as an empty tuple would give, is ill-formed. *)
Definition runtime_get (c : TemplateTuple) (t : addr) (i : nat)
  : option variant :=
  match commonTemplateTuplele_access c with
  | [] => None
  | _ => call_access_function c t i
  end.

End TupleLike.

(** ** Action types and action values *)

(** The action types of the library. A state type is named by its position
    in the engine's [States...] list. *)
Inductive ActionTy : Type :=
| TNothing
| TTransitionTo (TargetState : nat)
| TOneOf (Actions : list ActionTy).

(** Action values. [OneOf] carries its [std::variant<Actions...> options]
    member: the list of alternatives, the active index, the value held. *)
Inductive Action : Type :=
| Nothing
| TransitionTo (TargetState : nat)
| OneOf (Actions : list ActionTy) (options_index : nat) (options : Action).

(** The static type of an action value. *)
Definition type_of (a : Action) : ActionTy :=
  match a with
  | Nothing => TNothing
  | TransitionTo T => TTransitionTo T
  | OneOf Actions _ _ => TOneOf Actions
  end.

(** Type identity on action types. *)
Fixpoint ActionTy_eqb (a b : ActionTy) {struct a} : bool :=
  match a, b with
  | TNothing, TNothing => true
  | TTransitionTo s, TTransitionTo t => Nat.eqb s t
  | TOneOf l, TOneOf l' =>
      (fix all2 (l l' : list ActionTy) {struct l} : bool :=
         match l, l' with
         | [], [] => true
         | x :: l, y :: l' => ActionTy_eqb x y && all2 l l'
         | _, _ => false
         end) l l'
  | _, _ => false
  end.

(** The alternatives of [std::variant<Actions...>] whose type is exactly [T],
    by position, counting from [k]. *)
Fixpoint alternatives_of (T : ActionTy) (Actions : list ActionTy) (k : nat)
  : list nat :=
  match Actions with
  | [] => []
  | A :: Actions' =>
      if ActionTy_eqb A T then k :: alternatives_of T Actions' (S k)
      else alternatives_of T Actions' (S k)
  end.

(** [OneOf(T&& arg) : options(std::forward<T>(arg))]: the converting
    constructor of [std::variant] activates the alternative whose type is
    that of [arg]. The construction is ill-formed ([None]) when that type
    occurs more than once among the alternatives; arguments whose type is not
    listed at all are not covered by this embedding and give [None] too. *)
Definition OneOf_ctor (Actions : list ActionTy) (arg : Action)
  : option Action :=
  match alternatives_of (type_of arg) Actions 0 with
  | [k] => Some (OneOf Actions k arg)
  | _ => None
  end.

(** [struct Maybe : public OneOf<Action, Nothing>]. *)
Definition Maybe (A : ActionTy) : ActionTy := TOneOf [A; TNothing].

(** [using OneOf<Action, Nothing>::OneOf;] the inherited constructor. *)
Definition Maybe_ctor (A : ActionTy) (arg : Action) : option Action :=
  OneOf_ctor [A; TNothing] arg.

(** [Action{}]: value-initialisation. [Nothing] and [TransitionTo] are empty
    aggregates; [OneOf] declares only the converting constructor, so it has
    no default value and [Action{}] does not compile for it. *)
Definition value_init (A : ActionTy) : option Action :=
  match A with
  | TNothing => Some Nothing
  | TTransitionTo T => Some (TransitionTo T)
  | TOneOf _ => None
  end.

(** The action a value finally performs: what [std::visit] reaches through
    the [OneOf] wrappers. *)
Fixpoint held_action (a : Action) : Action :=
  match a with
  | OneOf _ _ options => held_action options
  | _ => a
  end.

(** Every [TransitionTo<T>] an action can perform names one of the first [n]
    state types; for other targets [machine.transitionTo<T>()] does not
    compile. *)
Definition target_listed (n : nat) (a : Action) : Prop :=
  match held_action a with
  | TransitionTo T => T < n
  | _ => True
  end.

(** ** fsm/actions/ByDefault.hpp *)

(** [ByDefault<Action>::handle(const Event&) const { return Action{}; }].
    A [const] member taking the event by [const] reference: it returns a
    value and has no effect, so it is a function of the state it is called
    on and of the event. *)
Definition ByDefault_handle (A : ActionTy) {State Event : Type}
  (self : State) (event : Event) : option Action :=
  value_init A.

(** ** fsm/StateMachine.hpp *)

Section Engine.

(** The template parameters [States...] and the type of events. The event
    types a program uses are the constructors of [Event]; overloads on the
    event type become functions matching on the event. *)
Context (States : list Type) (Event : Type).

(** What each state type declares. [handle_of I s e] is the result of
    [s.handle(e)] for the state type in position [I], [None] when the call
    does not compile. [onEnter_of I e] and [onLeave_of I e] are the hooks
    [onEnter(e)] and [onLeave(e)] of that state type when it declares one for
    the type of [e]: a hook sees its own object and the event only. *)
Context (handle_of : forall I, tuple_element I States -> Event -> option Action).
Context (onEnter_of onLeave_of :
          forall I, Event -> option (tuple_element I States -> tuple_element I States)).

(** What a tuple of states is left holding after [std::move] took its
    elements away. *)
Context (moved_from : tuple States -> tuple States).

(** [class StateMachine]: the two data members. *)
Record StateMachine : Type := mkStateMachine {
  states : tuple States;
  currentState : variant
}.

(** What an outside observer can see of an execution, in order: the start of
    a dispatch, each hook call with the current-state variant, at the moment
    of the call, of the engine owning the state the hook is called on, and
    each switch of the current state. *)
Inductive observation : Type :=
| ObsHandle (this : addr) (event : Event)
| ObsLeave (state : pointer) (event : Event) (current : option variant)
| ObsTransitionTo (machine : addr) (TargetState : nat)
| ObsEnter (state : pointer) (event : Event) (current : option variant).

(** The engines alive, by address, and the observations so far (the latter
    is ghost state: nothing reads it). *)
Record World : Type := mkWorld {
  heap : gmap addr StateMachine;
  trace : list observation
}.

(** Computations over the world that may be undefined. *)
Definition M (A : Type) : Type := World -> option (A * World).

#[export] Instance M_ret : MRet M := fun A x w => Some (x, w).

#[export] Instance M_bind : MBind M := fun A B f m w =>
  match m w with
  | Some (x, w') => f x w'
  | None => None
  end.

Definition undefined {A} : M A := fun _ => None.

Definition lift {A} (o : option A) : M A := fun w =>
  match o with
  | Some x => Some (x, w)
  | None => None
  end.

(** Reading the object a [StateMachine&] refers to. *)
Definition machine_at (a : addr) : M StateMachine := fun w =>
  match heap w !! a with
  | Some m => Some (m, w)
  | None => None
  end.

(** Overwriting the data members of a live engine. *)
Definition update_machine (a : addr) (f : StateMachine -> StateMachine) : M unit :=
  fun w =>
    match heap w !! a with
    | Some m => Some (tt, mkWorld (<[a := f m]> (heap w)) (trace w))
    | None => None
    end.

(** An engine coming to life in storage that holds none. *)
Definition allocate (a : addr) (m : StateMachine) : M unit := fun w =>
  match heap w !! a with
  | Some _ => None
  | None => Some (tt, mkWorld (<[a := m]> (heap w)) (trace w))
  end.

Definition observe (o : observation) : M unit := fun w =>
  Some (tt, mkWorld (heap w) (trace w ++ [o])).

(** The current-state variant, right now, of the engine whose tuple holds
    [*p], if any. *)
Definition snapshot (p : pointer) : M (option variant) := fun w =>
  match p with
  | nullptr => Some (None, w)
  | address_of owner _ => Some (currentState <$> heap w !! owner, w)
  end.

(** [*p] for [p] of type [States[I]*], reading. A pointer of that type into
    an engine's tuple can only be the address of slot [I]. *)
Definition deref (I : nat) (p : pointer) : M (tuple_element I States) :=
  match p with
  | nullptr => undefined
  | address_of owner slot =>
      if decide (slot = I) then
        m ← machine_at owner; mret (get I (states m))
      else undefined
  end.

(** [*p = v] for [p] of type [States[I]*]. *)
Definition assign_through (I : nat) (p : pointer) (v : tuple_element I States)
  : M unit :=
  match p with
  | nullptr => undefined
  | address_of owner slot =>
      if decide (slot = I) then
        update_machine owner
          (fun m => mkStateMachine (put I v (states m)) (currentState m))
      else undefined
  end.

(** [sizeof...(States)]. *)
Definition size : nat := length States.

(** [currentState = v;] *)
Definition set_currentState (this : addr) (v : variant) : M unit :=
  update_machine this (fun m => mkStateMachine (states m) v).

(** [StateMachine() : currentState(&std::get<0>(states)) {}]. The states are
    default-constructed, which takes a default value of every state type;
    [std::get<0>] needs a first element. *)
Definition StateMachine_default (states_default : option (tuple States))
  (this : addr) : M unit :=
  match states_default with
  | Some states_init =>
      if decide (0 < size) then
        allocate this (mkStateMachine states_init (mkVariant 0 (address_of this 0)))
      else undefined
  | None => undefined
  end.

(** [StateMachine(States... states_in) : states(std::move(states_in)...)
     { currentState = &std::get<0>(states); }]. The variant member is
    default-initialised first: alternative 0 holding a null pointer. *)
Definition StateMachine_ctor (states_in : tuple States) (this : addr) : M unit :=
  if decide (0 < size) then
    allocate this (mkStateMachine states_in (mkVariant 0 nullptr));;
    set_currentState this (mkVariant 0 (address_of this 0))
  else undefined.

(** [StateMachine(const StateMachine& other) : states(other.states)
     { currentState = runtime_get(states, other.currentState.index()); }] *)
Definition StateMachine_copy (this other : addr) : M unit :=
  o ← machine_at other;
  allocate this (mkStateMachine (states o) (mkVariant 0 nullptr));;
  o ← machine_at other;
  v ← lift (TupleTools.runtime_get size this (index (currentState o)));
  set_currentState this v.

(** [StateMachine(StateMachine&& other) : states(std::move(other.states))
     { currentState = runtime_get(states, other.currentState.index()); }] *)
Definition StateMachine_move (this other : addr) : M unit :=
  o ← machine_at other;
  allocate this (mkStateMachine (states o) (mkVariant 0 nullptr));;
  update_machine other
    (fun o => mkStateMachine (moved_from (states o)) (currentState o));;
  o ← machine_at other;
  v ← lift (TupleTools.runtime_get size this (index (currentState o)));
  set_currentState this v.

(** [StateMachine& operator=(const StateMachine& other)]; returns [*this]. *)
Definition copy_assign (this other : addr) : M addr :=
  (if decide (this <> other) then
     o ← machine_at other;
     update_machine this (fun m => mkStateMachine (states o) (currentState m));;
     o ← machine_at other;
     v ← lift (TupleTools.runtime_get size this (index (currentState o)));
     set_currentState this v
   else mret tt);;
  mret this.

(** [StateMachine& operator=(StateMachine&& other)]; returns [*this]. *)
Definition move_assign (this other : addr) : M addr :=
  (if decide (this <> other) then
     o ← machine_at other;
     update_machine this (fun m => mkStateMachine (states o) (currentState m));;
     update_machine other
       (fun o => mkStateMachine (moved_from (states o)) (currentState o));;
     o ← machine_at other;
     v ← lift (TupleTools.runtime_get size this (index (currentState o)));
     set_currentState this v
   else mret tt);;
  mret this.

(** [template <typename State> State& transitionTo()], the state type given
    by its position; [std::get<State>] does not compile for a type that is
    not listed. The reference returned is the pointer [&state]. *)
Definition transitionTo (this : addr) (State : nat) : M pointer :=
  if decide (State < size) then
    let state := address_of this State in
    observe (ObsTransitionTo this State);;
    set_currentState this (mkVariant State state);;
    mret state
  else undefined.

(** *** The actions' [execute] members

    [execute(Machine& machine, State& state, const Event& event)]: the
    engine is passed by its address, the source state by the pointer the
    reference stands for together with the position [State] of its type. *)

(** [Nothing::execute(Machine&, State&, const Event&) {}] *)
Definition Nothing_execute (machine : addr) (State : nat) (state : pointer)
  (event : Event) : M unit :=
  mret tt.

(** Modelled from the spec: the file fsm/actions/TransitionTo.hpp, which
    main.cpp includes, is not among the sources. Step (1) of its [execute]:
    invoke [sourceState.onLeave(event)] if such a hook exists for that event
    type on that state's type, silently skipped otherwise. The call is
    recorded before it is made. *)
Definition leave (State : nat) (state : pointer) (event : Event) : M unit :=
  match onLeave_of State event with
  | Some onLeave =>
      current ← snapshot state;
      observe (ObsLeave state event current);;
      s ← deref State state;
      assign_through State state (onLeave s)
  | None => mret tt
  end.

(** Modelled from the spec: step (3) of [TransitionTo::execute], invoke
    [target.onEnter(event)] if such a hook exists for that event type,
    skipped otherwise. *)
Definition enter (State : nat) (state : pointer) (event : Event) : M unit :=
  match onEnter_of State event with
  | Some onEnter =>
      current ← snapshot state;
      observe (ObsEnter state event current);;
      s ← deref State state;
      assign_through State state (onEnter s)
  | None => mret tt
  end.

(** Modelled from the spec: [TransitionTo<TargetState>::execute], in order
    (1) the leave hook of the source state, (2) the engine's transition
    operation, giving a reference to the target state, (3) the enter hook of
    the target. *)
Definition TransitionTo_execute (TargetState : nat) (machine : addr)
  (State : nat) (state : pointer) (event : Event) : M unit :=
  leave State state event;;
  newState ← transitionTo machine TargetState;
  enter TargetState newState event.

(** [action.execute(machine, state, event)] for each action type. For
    [OneOf] it is [std::visit([&](auto& action) { action.execute(machine,
    state, event); }, options)]: the call goes to the value held. *)
Fixpoint execute (action : Action) (machine : addr) (State : nat)
  (state : pointer) (event : Event) : M unit :=
  match action with
  | Nothing => Nothing_execute machine State state event
  | TransitionTo TargetState =>
      TransitionTo_execute TargetState machine State state event
  | OneOf _ _ options => execute options machine State state event
  end.

(** [template <typename Event, typename Machine>
     void handleBy(const Event& event, Machine& machine)]:
    [std::visit] calls the lambda with the pointer held in [currentState],
    at the type of the active alternative. Here [handle] is a [const]
    member of the state, as every handler of the repository is: the call
    returns the action and leaves the state as it is. [NonConst.handleBy]
    below embeds the call for handlers that may modify their state. *)
Definition handleBy (this : addr) (event : Event) (machine : addr) : M unit :=
  observe (ObsHandle this event);;
  m ← machine_at this;
  let State := index (currentState m) in
  let statePtr := held (currentState m) in
  s ← deref State statePtr;
  action ← lift (handle_of State s event);
  execute action machine State statePtr event.

(** [void handle(const Event& event) { handleBy(event, *this); }] *)
Definition handle (this : addr) (event : Event) : M unit :=
  handleBy this event this.

(** *** The invariant of the current-state variant *)

(** The state in position [I] of the engine at [a] is its current state:
    the variant's active alternative is [I] and holds the address of slot
    [I] of the engine's own tuple. *)
Definition is_current (a : addr) (m : StateMachine) (I : nat) : Prop :=
  I < size /\ currentState m = mkVariant I (address_of a I).

(** Every live engine points into its own tuple. *)
Definition well_formed (w : World) : Prop :=
  forall a m, heap w !! a = Some m -> exists I, is_current a m I.

(** Every state type handles every event, with an action whose target is
    listed: what the compiler checks when [handle] is instantiated. *)
Definition handlers_compile : Prop :=
  forall I s e, I < size ->
    exists action, handle_of I s e = Some action /\ target_listed size action.

(** The calls a client can make on engines of this type. *)
Inductive call : Type :=
| NewDefault (states_default : option (tuple States)) (this : addr)
| New (states_in : tuple States) (this : addr)
| NewCopy (this other : addr)
| NewMove (this other : addr)
| CopyAssign (this other : addr)
| MoveAssign (this other : addr)
| TransitionToCall (this : addr) (State : nat)
| Handle (this : addr) (event : Event)
| HandleBy (this : addr) (event : Event) (machine : addr).

Definition perform (c : call) : M unit :=
  match c with
  | NewDefault d this => StateMachine_default d this
  | New states_in this => StateMachine_ctor states_in this
  | NewCopy this other => StateMachine_copy this other
  | NewMove this other => StateMachine_move this other
  | CopyAssign this other => copy_assign this other;; mret tt
  | MoveAssign this other => move_assign this other;; mret tt
  | TransitionToCall this State => transitionTo this State;; mret tt
  | Handle this event => handle this event
  | HandleBy this event machine => handleBy this event machine
  end.

Fixpoint run (cs : list call) : M unit :=
  match cs with
  | [] => mret tt
  | c :: cs' => perform c;; run cs'
  end.

(** No engine yet, nothing observed. *)
Definition start : World := mkWorld ∅ [].

(** A hook applied in place to slot [I] of a tuple, if the hook exists. *)
Definition hooked (I : nat)
  (hook : option (tuple_element I States -> tuple_element I States))
  (t : tuple States) : tuple States :=
  match hook with
  | Some f => put I (f (get I t)) t
  | None => t
  end.

(** The observations a hook call leaves, if the hook exists. *)
Definition leave_obs (I : nat) (state : pointer) (e : Event)
  (current : option variant) : list observation :=
  match onLeave_of I e with
  | Some _ => [ObsLeave state e current]
  | None => []
  end.

Definition enter_obs (I : nat) (state : pointer) (e : Event)
  (current : option variant) : list observation :=
  match onEnter_of I e with
  | Some _ => [ObsEnter state e current]
  | None => []
  end.

(** An engine's data after the state in slot [I] was left on event [e]. *)
Definition left (I : nat) (e : Event) (m : StateMachine) : StateMachine :=
  mkStateMachine (hooked I (onLeave_of I e) (states m)) (currentState m).

(** The data of the engine at [machine] after it switched to slot [T] and
    that state was entered on event [e]. *)
Definition entered (machine : addr) (T : nat) (e : Event) (m : StateMachine)
  : StateMachine :=
  mkStateMachine (hooked T (onEnter_of T e) (states m))
    (mkVariant T (address_of machine T)).

(** The engine's data after a transition of its own from slot [I] to slot
    [T] on event [e], hooks included. *)
Definition transitioned (this : addr) (I T : nat) (e : Event)
  (m : StateMachine) : StateMachine :=
  entered this T e (left I e m).

(** What is observed of [handleBy(e, machine)] on the engine at [this] when
    its current state, in slot [I], answers with a transition to slot [T]. *)
Definition transition_observed (this machine : addr) (I T : nat) (e : Event)
  : list observation :=
  [ObsHandle this e]
  ++ leave_obs I (address_of this I) e (Some (mkVariant I (address_of this I)))
  ++ [ObsTransitionTo machine T]
  ++ enter_obs T (address_of machine T) e
       (Some (mkVariant T (address_of machine T))).

(** The engine built at [this] from the engine [o]: the same states, the
    variant re-derived for slot [index] of the new tuple. *)
Definition copied (this : addr) (o : StateMachine) : StateMachine :=
  mkStateMachine (states o)
    (mkVariant (index (currentState o))
       (address_of this (index (currentState o)))).

(** The engine [o] after its states were moved away. *)
Definition emptied (o : StateMachine) : StateMachine :=
  mkStateMachine (moved_from (states o)) (currentState o).

(** [w'] has every engine of [w], and each engine of [w'] either designates
    a state of its own or has the variant it had in [w]. *)
Definition extends (w w' : World) : Prop :=
  (forall a, is_Some (heap w !! a) -> is_Some (heap w' !! a)) /\
  (forall a m', heap w' !! a = Some m' ->
     (exists I, is_current a m' I) \/
     (exists m, heap w !! a = Some m /\ currentState m' = currentState m)).

Definition safe {A} (c : M A) : Prop :=
  forall w x w', c w = Some (x, w') -> extends w w'.

(** [virtual ~StateMachine() noexcept {}]: the body is empty; the engine's
    lifetime ends and its members, the tuple of states and the variant, go
    with it. Destroying what is not alive is undefined. *)
Definition StateMachine_dtor (this : addr) : M unit := fun w =>
  match heap w !! this with
  | Some _ => Some (tt, mkWorld (delete this (heap w)) (trace w))
  | None => None
  end.

(** A hook applied to one state instance, if the hook exists. *)
Definition apply_hook {S : Type} (hook : option (S -> S)) (s : S) : S :=
  match hook with
  | Some f => f s
  | None => s
  end.

End Engine.

Arguments mkStateMachine {States} _ _.
Arguments states {States} _.
Arguments currentState {States} _.
Arguments mkWorld {States Event} _ _.
Arguments heap {States Event} _.
Arguments trace {States Event} _.
Arguments ObsHandle {Event} _ _.
Arguments ObsLeave {Event} _ _ _.
Arguments ObsTransitionTo {Event} _ _.
Arguments ObsEnter {Event} _ _ _.
Arguments deref : simpl never.
Arguments assign_through : simpl never.
Arguments transitionTo : simpl never.
Arguments leave : simpl never.
Arguments enter : simpl never.

(** ** Handler fragments and the overloads of [handle] *)

Section Handlers.

Context {State Event : Type}.

(** In overload resolution a non-template function that matches is preferred
    to a function template. *)
Inductive overload_kind : Type := NonTemplate | Template.

(** One [handle] overload contributed to a state type: its kind, the events
    whose type it accepts, and its body. *)
Record overload : Type := mkOverload {
  kind : overload_kind;
  viable : Event -> bool;
  body : State -> Event -> option Action
}.

Definition is_template (h : overload) : bool :=
  match kind h with Template => true | NonTemplate => false end.

(** [self.handle(event)] over a set of overloads brought into one scope
    (by [using Base::handle;]): the single viable non-template overload if
    there is one, else the single viable template; a call with no viable
    overload, or with more than one of the best kind, does not compile. *)
Definition resolve (overloads : list overload) (self : State) (event : Event)
  : option Action :=
  match List.filter (fun h => negb (is_template h) && viable h event) overloads with
  | [h] => body h self event
  | [] =>
      match List.filter (fun h => is_template h && viable h event) overloads with
      | [h] => body h self event
      | _ => None
      end
  | _ => None
  end.

(** [ByDefault<Action>] as a base class: a template [handle], viable for
    every event type. *)
Definition ByDefault (A : ActionTy) : overload :=
  mkOverload Template (fun _ => true) (ByDefault_handle A).

(** Modelled from the spec: the file fsm/actions/On.hpp is not among the
    sources. [On<E, A>] supplies exactly [handle(const E&) -> A], returning
    a default-constructed action object; [is_E] recognises the events of
    type [E]. *)
Definition On (is_E : Event -> bool) (A : ActionTy) : overload :=
  mkOverload NonTemplate is_E (fun _ _ => value_init A).

(** Modelled from the spec: the file fsm/actions/Will.hpp is not among the
    sources. [Will<Handlers...>] derives from every fragment and its overload
    set is the union of theirs ([using Handlers::handle...;]). *)
Definition Will (Handlers : list overload) (self : State) (event : Event)
  : option Action :=
  resolve Handlers self event.

End Handlers.

Arguments overload : clear implicits.

End fsm.

Import fsm.

(** ** fsm/StateMachine.hpp, handlers that are not [const] *)

Module NonConst.

Section NonConst.

Context (States : list Type) (Event : Type).

(** [handle_of I s e] is what the call [s.handle(e)] does for the state
    type in position [I]: the action it returns and the state it leaves
    behind. The engine calls it through a [State*] that is not [const]. *)
Context (handle_of :
          forall I, tuple_element I States -> Event
                    -> option (Action * tuple_element I States)).
Context (onEnter_of onLeave_of :
          forall I, Event -> option (tuple_element I States -> tuple_element I States)).

(** [handleBy(event, machine)]: [auto action = statePtr->handle(event);]
    then [action.execute(machine, *statePtr, event);]. *)
Definition handleBy (this : addr) (event : Event) (machine : addr)
  : M States Event unit :=
  observe States Event (ObsHandle this event);;
  m ← machine_at States Event this;
  let State := index (currentState m) in
  let statePtr := held (currentState m) in
  s ← deref States Event State statePtr;
  r ← lift States Event (handle_of State s event);
  assign_through States Event State statePtr (snd r);;
  execute States Event onEnter_of onLeave_of (fst r) machine State statePtr event.

(** [void handle(const Event& event) { handleBy(event, *this); }] *)
Definition handle (this : addr) (event : Event) : M States Event unit :=
  handleBy this event this.

(** An engine after the handler of its state in slot [I] left [s'] there. *)
Definition handled (I : nat) (s' : tuple_element I States)
  (m : StateMachine States) : StateMachine States :=
  mkStateMachine (put I s' (states m)) (currentState m).

End NonConst.

(** Handlers that are [const] members, as handlers that happen to leave
    their state as it is. *)
Definition const_handlers {States : list Type} {Event : Type}
  (h : forall I, tuple_element I States -> Event -> option Action)
  (I : nat) (s : tuple_element I States) (e : Event)
  : option (Action * tuple_element I States) :=
  match h I s e with
  | Some action => Some (action, s)
  | None => None
  end.

End NonConst.

(** ** example/main.cpp *)

Module Door.

(** [uint32_t]; the program only stores and compares such values. *)
Definition uint32_t : Type := Z.

Inductive Event : Type :=
| OpenEvent
| CloseEvent
| LockEvent (newKey : uint32_t)
| UnlockEvent (key : uint32_t).

Definition is_OpenEvent (e : Event) : bool :=
  match e with OpenEvent => true | _ => false end.
Definition is_CloseEvent (e : Event) : bool :=
  match e with CloseEvent => true | _ => false end.
Definition is_LockEvent (e : Event) : bool :=
  match e with LockEvent _ => true | _ => false end.
Definition is_UnlockEvent (e : Event) : bool :=
  match e with UnlockEvent _ => true | _ => false end.

Inductive ClosedState : Type := mkClosedState.
Inductive OpenState : Type := mkOpenState.
Record LockedState : Type := mkLockedState { key : uint32_t }.

(** [using Door = StateMachine<ClosedState, OpenState, LockedState>;] *)
Definition States : list Type := [ClosedState; OpenState; LockedState].

(** The positions of the state types in [States]. *)
Definition Closed : nat := 0.
Definition Open : nat := 1.
Definition Locked : nat := 2.

(** [struct ClosedState : public Will<ByDefault<Nothing>,
      On<LockEvent, TransitionTo<LockedState>>,
      On<OpenEvent, TransitionTo<OpenState>>>] *)
Definition ClosedState_handle : ClosedState -> Event -> option Action :=
  Will [ByDefault TNothing;
        On is_LockEvent (TTransitionTo Locked);
        On is_OpenEvent (TTransitionTo Open)].

(** [struct OpenState : public Will<ByDefault<Nothing>,
      On<CloseEvent, TransitionTo<ClosedState>>>] *)
Definition OpenState_handle : OpenState -> Event -> option Action :=
  Will [ByDefault TNothing; On is_CloseEvent (TTransitionTo Closed)].

(** [Maybe<TransitionTo<ClosedState>> LockedState::handle(const UnlockEvent& e) const] *)
Definition LockedState_handle_UnlockEvent (self : LockedState) (e : Event)
  : option Action :=
  match e with
  | UnlockEvent e_key =>
      if (e_key =? key self)%Z then
        Maybe_ctor (TTransitionTo Closed) (TransitionTo Closed)
      else
        Maybe_ctor (TTransitionTo Closed) Nothing
  | _ => None
  end.

(** [class LockedState : public ByDefault<Nothing>] with
    [using ByDefault::handle;] next to its own overload. *)
Definition LockedState_handle : LockedState -> Event -> option Action :=
  resolve [ByDefault TNothing;
           mkOverload NonTemplate is_UnlockEvent LockedState_handle_UnlockEvent].

(** [void LockedState::onEnter(const LockEvent& e) { key = e.newKey; }] *)
Definition LockedState_onEnter (e_newKey : uint32_t) (self : LockedState)
  : LockedState :=
  mkLockedState e_newKey.

Definition handle_of (I : nat) : tuple_element I States -> Event -> option Action :=
  match I return tuple_element I States -> Event -> option Action with
  | 0 => ClosedState_handle
  | 1 => OpenState_handle
  | 2 => LockedState_handle
  | _ => fun _ _ => None
  end.

Definition onEnter_of (I : nat) (e : Event)
  : option (tuple_element I States -> tuple_element I States) :=
  match I return option (tuple_element I States -> tuple_element I States) with
  | 2 => match e with
         | LockEvent newKey => Some (LockedState_onEnter newKey)
         | _ => None
         end
  | _ => None
  end.

(** No state type of the example declares [onLeave]. *)
Definition onLeave_of (I : nat) (e : Event)
  : option (tuple_element I States -> tuple_element I States) :=
  None.

(** The state types are trivially copyable: moving a tuple leaves it as it
    was. *)
Definition moved_from (t : tuple States) : tuple States := t.

Definition Machine : Type := StateMachine States.
Definition DoorWorld : Type := World States Event.

(** The address of the local variable [door] of [main]. *)
Definition door : addr := 1%positive.

(** [Door door{ClosedState{}, OpenState{}, LockedState{0x11}};] *)
Definition construct : M States Event unit :=
  StateMachine_ctor States Event
    (mkClosedState, (mkOpenState, (mkLockedState 0x11%Z, tt))) door.

Definition door_handle (e : Event) : M States Event unit :=
  handle States Event handle_of onEnter_of onLeave_of door e.

(** The body of [main] up to each of its statements. *)
Definition main1 : M States Event unit :=
  construct;; door_handle (LockEvent 1234%Z).
Definition main2 : M States Event unit :=
  main1;; door_handle (UnlockEvent 2%Z).
Definition main3 : M States Event unit :=
  main2;; door_handle (UnlockEvent 1234%Z).

Definition start : DoorWorld := start States Event.

(** The object [door] with the given key in its [LockedState] and the state
    in position [current] as current state. *)
Definition door_object (locked_key : uint32_t) (current : nat) : Machine :=
  @mkStateMachine States
    (mkClosedState, (mkOpenState, (mkLockedState locked_key, tt)))
    (mkVariant current (address_of door current)).

(** A world holding one engine, [door], and no observation. *)
Definition world_of (m : Machine) : DoorWorld := mkWorld (<[door := m]> ∅) [].

(** The first three statements of [main], as calls. *)
Definition calls : list (call States Event) :=
  [New States Event
     (mkClosedState, (mkOpenState, (mkLockedState 0x11%Z, tt))) door;
   Handle States Event door (LockEvent 1234%Z);
   Handle States Event door (UnlockEvent 2%Z)].

(** The world they lead to. *)
Definition after_calls : DoorWorld :=
  mkWorld (<[door := door_object 1234%Z 2]> ∅)
    [ObsHandle door (LockEvent 1234%Z);
     ObsTransitionTo door 2;
     ObsEnter (address_of door 2) (LockEvent 1234%Z)
       (Some (mkVariant 2 (address_of door 2)));
     ObsHandle door (UnlockEvent 2%Z)].

(** The door as the diagram of the article draws it: Closed goes to Locked
    on Lock and to Open on Open, Open goes to Closed on Close, Locked goes
    to Closed on an Unlock with the key it holds; everything else changes
    nothing. Entering Locked stores the key of the Lock event. *)
Definition step (current : nat) (k : uint32_t) (e : Event) : nat * uint32_t :=
  match current, e with
  | 0, LockEvent newKey => (Locked, newKey)
  | 0, OpenEvent => (Open, k)
  | 1, CloseEvent => (Closed, k)
  | 2, UnlockEvent e_key => if (e_key =? k)%Z then (Closed, k) else (Locked, k)
  | _, _ => (current, k)
  end.

(** The diagram followed along a sequence of events. *)
Definition steps (current : nat) (k : uint32_t) (es : list Event)
  : nat * uint32_t :=
  fold_left (fun ck e => step (fst ck) (snd ck) e) es (current, k).

(** A [Door] object living at address [a]. *)
Definition object_at (a : addr) (locked_key : uint32_t) (current : nat)
  : Machine :=
  @mkStateMachine States
    (mkClosedState, (mkOpenState, (mkLockedState locked_key, tt)))
    (mkVariant current (address_of a current)).

(** The address of a second door. *)
Definition door2 : addr := 2%positive.

(** A world with two doors, both closed. *)
Definition two_doors : DoorWorld :=
  mkWorld (<[door2 := object_at door2 0x22%Z Closed]>
             (<[door := door_object 0x11%Z Closed]> ∅)) [].

(** The world after the first two statements of [main]. *)
Definition after_lock : DoorWorld :=
  mkWorld (<[door := door_object 1234%Z 2]> ∅)
    [ObsHandle door (LockEvent 1234%Z);
     ObsTransitionTo door 2;
     ObsEnter (address_of door 2) (LockEvent 1234%Z)
       (Some (mkVariant 2 (address_of door 2)))].

(** A second engine type, [StateMachine<ClosedState, OpenState>], whose state
    types are all default-constructible. *)
Definition States2 : list Type := [ClosedState; OpenState].

End Door.

(** ** An engine with a single state

    [StateMachine<Counter>], where [Counter] holds a number, answers every
    event with [TransitionTo<Counter>] and counts in [onEnter] how often it
    was entered. It serves as an instance of an engine whose state
    re-enters itself. *)

Module Loop.

Definition States : list Type := [nat : Type].

Definition handle_of (I : nat) (s : tuple_element I States) (e : unit)
  : option Action :=
  Some (TransitionTo 0).

Definition onEnter_of (I : nat) (e : unit)
  : option (tuple_element I States -> tuple_element I States) :=
  match I return option (tuple_element I States -> tuple_element I States) with
  | 0 => Some S
  | _ => None
  end.

Definition onLeave_of (I : nat) (e : unit)
  : option (tuple_element I States -> tuple_element I States) :=
  None.

Definition counter : addr := 1%positive.

Definition object (n : nat) : StateMachine States :=
  @mkStateMachine States (n, tt) (mkVariant 0 (address_of counter 0)).

Definition world (n : nat) : World States unit :=
  mkWorld (<[counter := object n]> ∅) [].

End Loop.

(** ** An engine whose handler is not [const]

    [StateMachine<Tally>], where [Tally] holds a number and handles every
    event with [Nothing handle(const Event&) { ++n; return {}; }]. It
    declares no hook. *)

Module Tally.

Definition States : list Type := [nat : Type].

Definition handle_of (I : nat)
  : tuple_element I States -> unit -> option (Action * tuple_element I States) :=
  match I return tuple_element I States -> unit
                 -> option (Action * tuple_element I States) with
  | 0 => fun n _ => Some (Nothing, S n)
  | _ => fun _ _ => None
  end.

Definition no_hook (I : nat) (e : unit)
  : option (tuple_element I States -> tuple_element I States) :=
  None.

Definition tally : addr := 1%positive.

Definition object (n : nat) : StateMachine States :=
  @mkStateMachine States (n, tt) (mkVariant 0 (address_of tally 0)).

Definition world (n : nat) : World States unit :=
  mkWorld (<[tally := object n]> ∅) [].

(** The world after one event was handled in [world n]. *)
Definition counted (n : nat) : World States unit :=
  mkWorld (<[tally := object (S n)]> ∅) [ObsHandle tally tt].

Definition handle (e : unit) : M States unit unit :=
  NonConst.handle States unit handle_of no_hook no_hook tally e.

End Tally.

(** * Properties *)

(** ** Tuples *)

Lemma get_put_same (Ts : list Type) I (v : tuple_element I Ts) (t : tuple Ts) :
  I < length Ts -> get I (put I v t) = v.
Proof.
  revert I v t. induction Ts as [|T Ts IH]; intros I v t HI; simpl in HI.
  - lia.
  - destruct I as [|I]; simpl; [reflexivity|]. apply IH. lia.
Qed.

Lemma get_put_other (Ts : list Type) I J (v : tuple_element I Ts) (t : tuple Ts) :
  I <> J -> get J (put I v t) = get J t.
Proof.
  revert I J v t. induction Ts as [|T Ts IH]; intros I J v t HIJ.
  - reflexivity.
  - destruct I as [|I], J as [|J]; simpl; try reflexivity; try congruence.
    apply IH. congruence.
Qed.

Lemma put_get (Ts : list Type) I (t : tuple Ts) : put I (get I t) t = t.
Proof.
  revert I t. induction Ts as [|T Ts IH]; intros I t.
  - reflexivity.
  - destruct t as [x t]. destruct I as [|I]; simpl; [reflexivity|].
    by rewrite IH.
Qed.

(** ** The runtime tuple access table *)

Lemma runtime_get_lt n t i :
  i < n -> TupleTools.runtime_get n t i = Some (mkVariant i (address_of t i)).
Proof.
  intros Hi. unfold TupleTools.runtime_get, TupleTools.call_access_function,
    TupleTools.lookup_table.
  rewrite list_lookup_fmap, lookup_seq_lt by done. reflexivity.
Qed.

Lemma runtime_get_ge n t i : n <= i -> TupleTools.runtime_get n t i = None.
Proof.
  intros Hi. unfold TupleTools.runtime_get, TupleTools.call_access_function,
    TupleTools.lookup_table.
  rewrite list_lookup_fmap, lookup_seq_ge by done. reflexivity.
Qed.

(** ** The engine *)

Section EngineFacts.

Context (States : list Type) (Event : Type).
Context (handle_of : forall I, tuple_element I States -> Event -> option Action).
Context (onEnter_of onLeave_of :
          forall I, Event -> option (tuple_element I States -> tuple_element I States)).
Context (moved_from : tuple States -> tuple States).

Local Abbreviation World := (World States Event).
Local Abbreviation size := (size States).
Local Abbreviation start := (start States Event).
Local Abbreviation transitionTo := (transitionTo States Event).
Local Abbreviation StateMachine_default := (StateMachine_default States Event).
Local Abbreviation StateMachine_ctor := (StateMachine_ctor States Event).
Local Abbreviation StateMachine_copy := (StateMachine_copy States Event).
Local Abbreviation StateMachine_move := (StateMachine_move States Event moved_from).
Local Abbreviation copy_assign := (copy_assign States Event).
Local Abbreviation move_assign := (move_assign States Event moved_from).
Local Abbreviation leave := (leave States Event onLeave_of).
Local Abbreviation enter := (enter States Event onEnter_of).
Local Abbreviation execute := (execute States Event onEnter_of onLeave_of).
Local Abbreviation handleBy := (handleBy States Event handle_of onEnter_of onLeave_of).
Local Abbreviation handle := (handle States Event handle_of onEnter_of onLeave_of).
Local Abbreviation perform :=
  (perform States Event handle_of onEnter_of onLeave_of moved_from).
Local Abbreviation run := (run States Event handle_of onEnter_of onLeave_of moved_from).
Local Abbreviation is_current := (is_current States).
Local Abbreviation well_formed := (well_formed States Event).
Local Abbreviation handlers_compile := (handlers_compile States Event handle_of).
Local Abbreviation hooked := (hooked States).
Local Abbreviation leave_obs := (leave_obs States Event onLeave_of).
Local Abbreviation enter_obs := (enter_obs States Event onEnter_of).
Local Abbreviation transitioned := (transitioned States Event onEnter_of onLeave_of).
Local Abbreviation left := (left States Event onLeave_of).
Local Abbreviation entered := (entered States Event onEnter_of).
Local Abbreviation transition_observed :=
  (transition_observed States Event onEnter_of onLeave_of).
Local Abbreviation copied := (copied States).
Local Abbreviation emptied := (emptied States moved_from).
Local Abbreviation extends := (extends States Event).
Local Abbreviation safe := (safe States Event).

(** Unfolding the monad and the primitive operations on the world. *)
Ltac unfold_M :=
  unfold set_currentState in *;
  unfold mbind, M_bind, mret, M_ret, lift, undefined, machine_at,
    update_machine, allocate, observe, snapshot in *.

Ltac simpl_world := unfold_M; simpl in *.

(** C10. Assigning an engine to itself, by copy or by move, does nothing:
    the world (states, current-state variant, every other engine) is left as
    it was, and the call returns [*this]. *)
Theorem self_assignment_noop (this : addr) (w : World) :
  copy_assign this this w = Some (this, w) /\
  move_assign this this w = Some (this, w).
Proof.
  unfold fsm.copy_assign, fsm.move_assign. simpl_world.
  destruct (decide (this <> this)) as [Hne|_]; [by destruct Hne|].
  split; reflexivity.
Qed.

(** [transitionTo] on a live engine, for a listed state type. *)
Lemma transitionTo_live this State (w : World) m :
  State < size -> heap w !! this = Some m ->
  transitionTo this State w =
    Some (address_of this State,
          mkWorld (<[this := mkStateMachine (states m)
                               (mkVariant State (address_of this State))]> (heap w))
                  (trace w ++ [ObsTransitionTo this State])).
Proof.
  intros HS Hm. unfold fsm.transitionTo. simpl_world.
  destruct (decide (State < size)); [|lia]. simpl. by rewrite Hm.
Qed.

Lemma world_eta (w : World) : mkWorld (heap w) (trace w) = w.
Proof. by destruct w. Qed.

Lemma machine_eta (m : StateMachine States) :
  mkStateMachine (states m) (currentState m) = m.
Proof. by destruct m. Qed.

Lemma deref_own I a (w : World) m :
  heap w !! a = Some m ->
  deref States Event I (address_of a I) w = Some (get I (states m), w).
Proof.
  intros Hm. unfold deref. destruct (decide (I = I)); [|done].
  simpl_world. by rewrite Hm.
Qed.

Lemma assign_through_own I a v (w : World) m :
  heap w !! a = Some m ->
  assign_through States Event I (address_of a I) v w =
    Some (tt, mkWorld (<[a := mkStateMachine (put I v (states m)) (currentState m)]>
                         (heap w)) (trace w)).
Proof.
  intros Hm. unfold assign_through. destruct (decide (I = I)); [|done].
  simpl_world. by rewrite Hm.
Qed.

Lemma leave_own I a e (w : World) m :
  heap w !! a = Some m ->
  leave I (address_of a I) e w =
    Some (tt, mkWorld (<[a := left I e m]> (heap w))
                (trace w ++ leave_obs I (address_of a I) e (Some (currentState m)))).
Proof.
  intros Hm. unfold fsm.leave, fsm.leave_obs, fsm.left, fsm.hooked.
  destruct (onLeave_of I e) as [f|].
  - unfold mbind at 1 2 3, M_bind, snapshot, observe. simpl.
    erewrite deref_own by (simpl; exact Hm).
    erewrite assign_through_own by (simpl; exact Hm). by rewrite Hm.
  - simpl_world. rewrite machine_eta, insert_id by done.
    by rewrite app_nil_r, world_eta.
Qed.

Lemma enter_own I a e (w : World) m :
  heap w !! a = Some m ->
  enter I (address_of a I) e w =
    Some (tt, mkWorld
                (<[a := mkStateMachine (hooked I (onEnter_of I e) (states m))
                          (currentState m)]> (heap w))
                (trace w ++ enter_obs I (address_of a I) e (Some (currentState m)))).
Proof.
  intros Hm. unfold fsm.enter, fsm.enter_obs, fsm.hooked.
  destruct (onEnter_of I e) as [f|].
  - unfold mbind at 1 2 3, M_bind, snapshot, observe. simpl.
    erewrite deref_own by (simpl; exact Hm).
    erewrite assign_through_own by (simpl; exact Hm). by rewrite Hm.
  - simpl_world. rewrite machine_eta, insert_id by done.
    by rewrite app_nil_r, world_eta.
Qed.

Lemma execute_held_action action machine I state e :
  execute action machine I state e = execute (held_action action) machine I state e.
Proof. induction action; simpl; auto. Qed.

(** A transition of the engine at [machine], requested by the state in
    slot [I] of the engine at [a]. *)
Lemma execute_TransitionTo_live machine a I T e (w : World) m mm :
  heap w !! a = Some m ->
  <[a := left I e m]> (heap w) !! machine = Some mm ->
  T < size ->
  execute (TransitionTo T) machine I (address_of a I) e w =
    Some (tt, mkWorld
                (<[machine := entered machine T e mm]>
                   (<[a := left I e m]> (heap w)))
                (trace w
                 ++ leave_obs I (address_of a I) e (Some (currentState m))
                 ++ [ObsTransitionTo machine T]
                 ++ enter_obs T (address_of machine T) e
                      (Some (mkVariant T (address_of machine T))))).
Proof.
  intros Hm Hmm HT. simpl. unfold TransitionTo_execute.
  unfold mbind at 1, M_bind. erewrite leave_own by exact Hm.
  unfold mbind at 1, M_bind.
  erewrite transitionTo_live; [|done|simpl; exact Hmm].
  erewrite enter_own by (simpl; apply lookup_insert_eq).
  simpl. rewrite !insert_insert_eq.
  unfold fsm.entered. by rewrite <- !app_assoc.
Qed.

(** A transition executed against the engine that owns the source state. *)
Lemma execute_TransitionTo_own this I T e (w : World) m :
  heap w !! this = Some m -> T < size ->
  execute (TransitionTo T) this I (address_of this I) e w =
    Some (tt, mkWorld
                (<[this := transitioned this I T e m]> (heap w))
                (trace w
                 ++ leave_obs I (address_of this I) e (Some (currentState m))
                 ++ [ObsTransitionTo this T]
                 ++ enter_obs T (address_of this T) e
                      (Some (mkVariant T (address_of this T))))).
Proof.
  intros Hm HT.
  erewrite execute_TransitionTo_live; [|done|apply lookup_insert_eq|done].
  by rewrite insert_insert_eq.
Qed.

Lemma execute_TransitionTo_unlisted machine I a T e (w : World) m :
  heap w !! a = Some m -> ~ T < size ->
  execute (TransitionTo T) machine I (address_of a I) e w = None.
Proof.
  intros Hm HT. simpl. unfold TransitionTo_execute.
  unfold mbind at 1, M_bind. erewrite leave_own by exact Hm.
  unfold mbind at 1, M_bind. unfold fsm.transitionTo.
  by destruct (decide (T < size)).
Qed.

(** [handle] up to the call of the action's [execute]. *)
(** [handleBy] up to the call of the action's [execute]. *)
Lemma handleBy_eq this e machine (w : World) m I :
  heap w !! this = Some m -> is_current this m I ->
  handleBy this e machine w =
    match handle_of I (get I (states m)) e with
    | Some action =>
        execute action machine I (address_of this I) e
          (mkWorld (heap w) (trace w ++ [ObsHandle this e]))
    | None => None
    end.
Proof.
  intros Hm [HI Hcur]. unfold fsm.handleBy.
  unfold mbind at 1 2, M_bind, observe, machine_at. simpl. rewrite Hm, Hcur.
  simpl. unfold mbind at 1, M_bind. erewrite deref_own by (simpl; exact Hm).
  unfold mbind, M_bind, lift. by destruct (handle_of _ _ _).
Qed.

Lemma handle_eq this e (w : World) m I :
  heap w !! this = Some m -> is_current this m I ->
  handle this e w =
    match handle_of I (get I (states m)) e with
    | Some action =>
        execute action this I (address_of this I) e
          (mkWorld (heap w) (trace w ++ [ObsHandle this e]))
    | None => None
    end.
Proof. apply handleBy_eq. Qed.

Lemma handle_dispatch this e (w : World) m I action :
  heap w !! this = Some m -> is_current this m I ->
  handle_of I (get I (states m)) e = Some action ->
  handle this e w =
    execute action this I (address_of this I) e
      (mkWorld (heap w) (trace w ++ [ObsHandle this e])).
Proof. intros Hm Hcur Hh. erewrite handle_eq by eauto. by rewrite Hh. Qed.

Lemma lookup_after_left this machine I e (w : World) m :
  heap w !! this = Some m -> is_Some (heap w !! machine) ->
  is_Some (<[this := left I e m]> (heap w) !! machine).
Proof.
  intros Hm Hlive. destruct (decide (this = machine)) as [<-|Hne].
  - rewrite lookup_insert_eq. eauto.
  - by rewrite lookup_insert_ne.
Qed.

(** C1. When the current state [A] (slot [I]) of the engine at [this]
    handles [e] with a [TransitionTo<Target>] action (returned directly or
    held in a [OneOf]), [handleBy(e, machine)], and so [handle(e)] where
    [machine] is the engine itself, performs in this order and with nothing
    else in between: the [onLeave(e)] hook of [A] if it is declared, called
    while the variant of the engine still designates [A]; the
    [transitionTo<Target>()] of [machine]; the [onEnter(e)] hook of the
    target if it is declared, called while the variant of [machine]
    designates the target. The only dispatch observed is the one that
    started the call. *)
Theorem transition_leave_switch_enter this machine e (w : World) m I action T :
  heap w !! this = Some m -> is_current this m I ->
  handle_of I (get I (states m)) e = Some action ->
  held_action action = TransitionTo T -> T < size ->
  is_Some (heap w !! machine) ->
  (exists mm,
     <[this := left I e m]> (heap w) !! machine = Some mm /\
     handleBy this e machine w =
       Some (tt, mkWorld
                   (<[machine := entered machine T e mm]>
                      (<[this := left I e m]> (heap w)))
                   (trace w ++ transition_observed this machine I T e))) /\
  handle this e w =
    Some (tt, mkWorld (<[this := transitioned this I T e m]> (heap w))
                (trace w ++ transition_observed this this I T e)).
Proof.
  intros Hm Hcur Hh Hheld HT Hlive. split.
  - destruct (lookup_after_left this machine I e w m Hm Hlive) as [mm Hmm].
    exists mm. split; [done|].
    erewrite handleBy_eq by eauto. rewrite Hh, execute_held_action, Hheld.
    erewrite execute_TransitionTo_live by (simpl; eauto).
    simpl. unfold fsm.transition_observed. destruct Hcur as [_ ->].
    by rewrite <- !app_assoc.
  - erewrite handle_dispatch by eauto.
    rewrite execute_held_action, Hheld.
    erewrite execute_TransitionTo_own by (simpl; eauto).
    simpl. unfold fsm.transition_observed. destruct Hcur as [_ ->].
    by rewrite <- !app_assoc.
Qed.

(** C5. [transitionTo<TargetState>()] on a live engine makes the variant
    designate the engine's own instance of [TargetState] and returns the
    reference to that instance; the tuple of states is unchanged, so is
    every other engine, and the only thing observed is the switch itself: no
    hook is called. *)
Theorem transitionTo_bookkeeping this TargetState (w : World) m :
  TargetState < size -> heap w !! this = Some m ->
  exists state w',
    transitionTo this TargetState w = Some (state, w') /\
    state = address_of this TargetState /\
    heap w' = <[this := mkStateMachine (states m) (mkVariant TargetState state)]> (heap w) /\
    is_current this (mkStateMachine (states m) (mkVariant TargetState state)) TargetState /\
    deref States Event TargetState state w' = Some (get TargetState (states m), w') /\
    (forall a, a <> this -> heap w' !! a = heap w !! a) /\
    trace w' = trace w ++ [ObsTransitionTo this TargetState].
Proof.
  intros HT Hm. eexists _, _. split; [by apply transitionTo_live|].
  simpl. split_and!; try done.
  - by erewrite deref_own by (simpl; apply lookup_insert_eq).
  - intros a Ha. by rewrite lookup_insert_ne.
Qed.

(** C4. For a non-empty list of state types, the constructor taking one
    instance per state type and the default constructor (given the default
    value of every state type) both bring to life an engine that holds those
    instances and whose current state is its own instance of the first
    listed type. *)
Theorem constructors_start_in_first_state this (w : World) :
  0 < size -> heap w !! this = None ->
  forall init,
    let m := mkStateMachine init (mkVariant 0 (address_of this 0)) in
    StateMachine_ctor init this w = Some (tt, mkWorld (<[this := m]> (heap w)) (trace w)) /\
    StateMachine_default (Some init) this w
      = Some (tt, mkWorld (<[this := m]> (heap w)) (trace w)) /\
    is_current this m 0.
Proof.
  intros Hn Hfresh init m.
  unfold fsm.StateMachine_ctor, fsm.StateMachine_default.
  destruct (decide (0 < size)); [|lia]. simpl_world. rewrite Hfresh. simpl.
  rewrite lookup_insert_eq, insert_insert_eq. done.
Qed.

(** *** Preservation of the invariant *)

Lemma extends_refl (w : World) : extends w w.
Proof. split; [done|]. intros a m Hm. right. eauto. Qed.

Lemma is_current_variant a (m m' : StateMachine States) I :
  currentState m' = currentState m -> is_current a m I -> is_current a m' I.
Proof. intros Heq [HI Hc]. split; [done|]. congruence. Qed.

Lemma extends_trans (w1 w2 w3 : World) :
  extends w1 w2 -> extends w2 w3 -> extends w1 w3.
Proof.
  intros [Hd12 Hc12] [Hd23 Hc23]. split; [by auto|].
  intros a m3 Hm3. destruct (Hc23 a m3 Hm3) as [?|(m2 & Hm2 & Heq2)]; [by left|].
  destruct (Hc12 a m2 Hm2) as [[I HI]|(m1 & Hm1 & Heq1)].
  - left. exists I. by eapply is_current_variant.
  - right. exists m1. split; [done|]. congruence.
Qed.

Lemma extends_well_formed (w w' : World) :
  well_formed w -> extends w w' -> well_formed w'.
Proof.
  intros Hwf [_ Hc] a m' Hm'.
  destruct (Hc a m' Hm') as [?|(m & Hm & Heq)]; [done|].
  destruct (Hwf a m Hm) as [I HI]. exists I. by eapply is_current_variant.
Qed.

Lemma safe_ret {A} (x : A) : safe (mret x).
Proof. intros w y w' [= _ <-]. apply extends_refl. Qed.

Lemma safe_bind {A B} (c : M States Event A) (f : A -> M States Event B) :
  safe c -> (forall x, safe (f x)) -> safe (c ≫= f).
Proof.
  intros Hc Hf w y w' H. unfold mbind, M_bind in H.
  destruct (c w) as [[x w1]|] eqn:Hcw; [|done].
  eapply extends_trans; [by eapply Hc|by eapply Hf].
Qed.

Lemma safe_undefined {A} : safe (@undefined States Event A).
Proof. by intros w x w' H. Qed.

Lemma safe_lift {A} (o : option A) : safe (lift States Event o).
Proof. intros w x w' H. destruct o; [|done]. injection H as _ <-. apply extends_refl. Qed.

Lemma safe_machine_at a : safe (machine_at States Event a).
Proof.
  intros w x w' H. unfold machine_at in H.
  destruct (heap w !! a); [|done]. injection H as _ <-. apply extends_refl.
Qed.

Lemma safe_observe o : safe (observe States Event o).
Proof.
  intros w x w' [= _ <-]. split; simpl; [done|]. intros a m Hm. right. eauto.
Qed.

Lemma safe_snapshot p : safe (snapshot States Event p).
Proof. intros w x w' H. destruct p; injection H as _ <-; apply extends_refl. Qed.

(** An update is safe when it keeps the variant or makes it designate a
    state of the engine updated. *)
Lemma safe_update_machine a (f : StateMachine States -> StateMachine States) :
  (forall m, currentState (f m) = currentState m \/ exists I, is_current a (f m) I) ->
  safe (update_machine States Event a f).
Proof.
  intros Hf w x w' H. unfold update_machine in H.
  destruct (heap w !! a) as [m|] eqn:Hm; [|done]. injection H as _ <-.
  split; simpl.
  - intros b Hb. destruct (decide (a = b)) as [<-|Hne].
    + rewrite lookup_insert_eq. eauto.
    + by rewrite lookup_insert_ne.
  - intros b m' Hm'. destruct (decide (a = b)) as [<-|Hne].
    + rewrite lookup_insert_eq in Hm'. injection Hm' as <-.
      destruct (Hf m) as [Heq|?]; [|by left]. right. eauto.
    + rewrite lookup_insert_ne in Hm' by done. right. eauto.
Qed.

Lemma safe_deref I p : safe (deref States Event I p).
Proof.
  unfold deref. destruct p as [|owner slot]; [apply safe_undefined|].
  destruct (decide (slot = I)); [|apply safe_undefined].
  apply safe_bind; [apply safe_machine_at|]. intros m. apply safe_ret.
Qed.

Lemma safe_assign_through I p v : safe (assign_through States Event I p v).
Proof.
  unfold assign_through. destruct p as [|owner slot]; [apply safe_undefined|].
  destruct (decide (slot = I)); [|apply safe_undefined].
  apply safe_update_machine. intros m. by left.
Qed.

Lemma safe_transitionTo this State : safe (transitionTo this State).
Proof.
  unfold fsm.transitionTo.
  destruct (decide (State < size)); [|apply safe_undefined].
  apply safe_bind; [apply safe_observe|]. intros _.
  apply safe_bind; [|intros _; apply safe_ret].
  apply safe_update_machine. intros m. right. by exists State.
Qed.

Lemma safe_leave I state e : safe (leave I state e).
Proof.
  unfold fsm.leave. destruct (onLeave_of I e); [|apply safe_ret].
  apply safe_bind; [apply safe_snapshot|]. intros c.
  apply safe_bind; [apply safe_observe|]. intros _.
  apply safe_bind; [apply safe_deref|]. intros s. apply safe_assign_through.
Qed.

Lemma safe_enter I state e : safe (enter I state e).
Proof.
  unfold fsm.enter. destruct (onEnter_of I e); [|apply safe_ret].
  apply safe_bind; [apply safe_snapshot|]. intros c.
  apply safe_bind; [apply safe_observe|]. intros _.
  apply safe_bind; [apply safe_deref|]. intros s. apply safe_assign_through.
Qed.

Lemma safe_execute action machine I state e :
  safe (execute action machine I state e).
Proof.
  induction action as [|T|Actions k options IH]; simpl.
  - apply safe_ret.
  - unfold TransitionTo_execute.
    apply safe_bind; [apply safe_leave|]. intros _.
    apply safe_bind; [apply safe_transitionTo|]. intros p. apply safe_enter.
  - apply IH.
Qed.

Lemma safe_handleBy this e machine : safe (handleBy this e machine).
Proof.
  unfold fsm.handleBy.
  apply safe_bind; [apply safe_observe|]. intros _.
  apply safe_bind; [apply safe_machine_at|]. intros m.
  apply safe_bind; [apply safe_deref|]. intros s.
  apply safe_bind; [apply safe_lift|]. intros action. apply safe_execute.
Qed.

Lemma safe_rederive this i :
  safe (v ← lift States Event (TupleTools.runtime_get size this i);
        set_currentState States Event this v).
Proof.
  intros w x w' H. unfold mbind, M_bind, lift in H.
  destruct (decide (i < size)) as [Hi|Hi].
  - rewrite runtime_get_lt in H by done. revert w x w' H.
    unfold set_currentState. apply safe_update_machine.
    intros m. right. by exists i.
  - rewrite runtime_get_ge in H by lia. done.
Qed.

Lemma safe_copy_assign this other : safe (copy_assign this other).
Proof.
  unfold fsm.copy_assign.
  apply safe_bind; [|intros _; apply safe_ret].
  destruct (decide (this <> other)); [|apply safe_ret].
  apply safe_bind; [apply safe_machine_at|]. intros o.
  apply safe_bind; [apply safe_update_machine; intros m; by left|]. intros _.
  apply safe_bind; [apply safe_machine_at|]. intros o'. apply safe_rederive.
Qed.

Lemma safe_move_assign this other : safe (move_assign this other).
Proof.
  unfold fsm.move_assign.
  apply safe_bind; [|intros _; apply safe_ret].
  destruct (decide (this <> other)); [|apply safe_ret].
  apply safe_bind; [apply safe_machine_at|]. intros o.
  apply safe_bind; [apply safe_update_machine; intros m; by left|]. intros _.
  apply safe_bind; [apply safe_update_machine; intros m; by left|]. intros _.
  apply safe_bind; [apply safe_machine_at|]. intros o'. apply safe_rederive.
Qed.

(** *** What the constructors and assignments compute *)

Lemma StateMachine_ctor_eq init this (w : World) :
  StateMachine_ctor init this w =
    if decide (0 < size) then
      match heap w !! this with
      | None => Some (tt, mkWorld
                            (<[this := mkStateMachine init (mkVariant 0 (address_of this 0))]>
                               (heap w)) (trace w))
      | Some _ => None
      end
    else None.
Proof.
  unfold fsm.StateMachine_ctor. destruct (decide (0 < size)); [|done].
  simpl_world. destruct (heap w !! this); [done|]. simpl.
  by rewrite lookup_insert_eq, insert_insert_eq.
Qed.

Lemma StateMachine_default_eq d this (w : World) :
  StateMachine_default d this w =
    match d with
    | Some init => StateMachine_ctor init this w
    | None => None
    end.
Proof.
  destruct d as [init|]; [|done]. rewrite StateMachine_ctor_eq.
  unfold fsm.StateMachine_default. by destruct (decide (0 < size)).
Qed.

Lemma StateMachine_copy_eq this other (w : World) :
  StateMachine_copy this other w =
    match heap w !! other, heap w !! this with
    | Some o, None =>
        if decide (index (currentState o) < size) then
          Some (tt, mkWorld (<[this := copied this o]> (heap w)) (trace w))
        else None
    | _, _ => None
    end.
Proof.
  unfold fsm.StateMachine_copy. simpl_world.
  destruct (heap w !! other) as [o|] eqn:Ho; [|done].
  destruct (heap w !! this) as [m|] eqn:Hm; [done|]. simpl.
  assert (this <> other) by congruence.
  rewrite lookup_insert_ne, Ho by done.
  destruct (decide (index (currentState o) < size)).
  - rewrite runtime_get_lt by done. simpl.
    by rewrite lookup_insert_eq, insert_insert_eq.
  - by rewrite runtime_get_ge by lia.
Qed.

Lemma StateMachine_move_eq this other (w : World) :
  StateMachine_move this other w =
    match heap w !! other, heap w !! this with
    | Some o, None =>
        if decide (index (currentState o) < size) then
          Some (tt, mkWorld (<[this := copied this o]>
                               (<[other := emptied o]> (heap w))) (trace w))
        else None
    | _, _ => None
    end.
Proof.
  unfold fsm.StateMachine_move. simpl_world.
  destruct (heap w !! other) as [o|] eqn:Ho; [|done].
  destruct (heap w !! this) as [m|] eqn:Hm; [done|]. simpl.
  assert (this <> other) by congruence.
  rewrite lookup_insert_ne, Ho by done. simpl.
  rewrite lookup_insert_eq. simpl.
  destruct (decide (index (currentState o) < size)).
  - rewrite runtime_get_lt by done. simpl.
    rewrite lookup_insert_ne, lookup_insert_eq by done. simpl.
    rewrite (insert_insert_ne _ other this) by done.
    by rewrite !insert_insert_eq.
  - by rewrite runtime_get_ge by lia.
Qed.

Lemma copy_assign_eq this other (w : World) :
  this <> other ->
  copy_assign this other w =
    match heap w !! other, heap w !! this with
    | Some o, Some _ =>
        if decide (index (currentState o) < size) then
          Some (this, mkWorld (<[this := copied this o]> (heap w)) (trace w))
        else None
    | _, _ => None
    end.
Proof.
  intros Hne. unfold fsm.copy_assign. simpl_world.
  destruct (decide (this <> other)); [|done].
  destruct (heap w !! other) as [o|] eqn:Ho; [|done].
  destruct (heap w !! this) as [m|] eqn:Hm; [|done]. simpl.
  rewrite lookup_insert_ne, Ho by done.
  destruct (decide (index (currentState o) < size)).
  - rewrite runtime_get_lt by done. simpl.
    by rewrite lookup_insert_eq, insert_insert_eq.
  - by rewrite runtime_get_ge by lia.
Qed.

Lemma move_assign_eq this other (w : World) :
  this <> other ->
  move_assign this other w =
    match heap w !! other, heap w !! this with
    | Some o, Some _ =>
        if decide (index (currentState o) < size) then
          Some (this, mkWorld (<[this := copied this o]>
                                 (<[other := emptied o]> (heap w))) (trace w))
        else None
    | _, _ => None
    end.
Proof.
  intros Hne. unfold fsm.move_assign. simpl_world.
  destruct (decide (this <> other)); [|done].
  destruct (heap w !! other) as [o|] eqn:Ho; [|done].
  destruct (heap w !! this) as [m|] eqn:Hm; [|done]. simpl.
  rewrite lookup_insert_ne, Ho by done. simpl.
  rewrite lookup_insert_eq. simpl.
  destruct (decide (index (currentState o) < size)).
  - rewrite runtime_get_lt by done. simpl.
    rewrite lookup_insert_ne, lookup_insert_eq by done. simpl.
    rewrite (insert_insert_ne _ other this) by done.
    by rewrite !insert_insert_eq.
  - by rewrite runtime_get_ge by lia.
Qed.

(** *** The invariant along a run *)

Lemma well_formed_start : well_formed start.
Proof. intros a m Hm. simpl in Hm. by rewrite lookup_empty in Hm. Qed.

Lemma well_formed_insert_new a (m : StateMachine States) I (w : World) t :
  well_formed w -> is_current a m I ->
  well_formed (mkWorld (<[a := m]> (heap w)) t).
Proof.
  intros Hwf Hm b mb. simpl. destruct (decide (a = b)) as [<-|Hne].
  - rewrite lookup_insert_eq. intros [= <-]. eauto.
  - rewrite lookup_insert_ne by done. apply Hwf.
Qed.

Lemma is_current_copied this o : index (currentState o) < size ->
  is_current this (copied this o) (index (currentState o)).
Proof. by split. Qed.

Lemma perform_preserves c (w : World) x w' :
  well_formed w -> perform c w = Some (x, w') -> well_formed w'.
Proof.
  intros Hwf H. destruct c as [d this|init this|this other|this other
    |this other|this other|this State|this e|this e machine]; simpl in H.
  - rewrite StateMachine_default_eq in H. destruct d as [init|]; [|done].
    rewrite StateMachine_ctor_eq in H. destruct (decide (0 < size)); [|done].
    destruct (heap w !! this); [done|]. injection H as _ <-.
    by apply well_formed_insert_new with (I := 0).
  - rewrite StateMachine_ctor_eq in H. destruct (decide (0 < size)); [|done].
    destruct (heap w !! this); [done|]. injection H as _ <-.
    by apply well_formed_insert_new with (I := 0).
  - rewrite StateMachine_copy_eq in H.
    destruct (heap w !! other) as [o|]; [|done].
    destruct (heap w !! this); [done|].
    destruct (decide (index (currentState o) < size)); [|done].
    injection H as _ <-.
    by eapply well_formed_insert_new, is_current_copied.
  - rewrite StateMachine_move_eq in H.
    destruct (heap w !! other) as [o|] eqn:Ho; [|done].
    destruct (heap w !! this); [done|].
    destruct (decide (index (currentState o) < size)); [|done].
    injection H as _ <-.
    assert (Hwf1 : well_formed (mkWorld (<[other := emptied o]> (heap w)) (trace w))).
    { destruct (Hwf other o Ho) as [I HI].
      apply well_formed_insert_new with (I := I); [done|].
      by apply (is_current_variant other o). }
    exact (well_formed_insert_new this _ _ _ (trace w) Hwf1
             (is_current_copied this o l)).
  - eapply extends_well_formed; [done|].
    eapply (safe_bind _ _ (safe_copy_assign this other)), H.
    intros. apply safe_ret.
  - eapply extends_well_formed; [done|].
    eapply (safe_bind _ _ (safe_move_assign this other)), H.
    intros. apply safe_ret.
  - eapply extends_well_formed; [done|].
    eapply (safe_bind _ _ (safe_transitionTo this State)), H.
    intros. apply safe_ret.
  - eapply extends_well_formed; [done|]. by eapply safe_handleBy.
  - eapply extends_well_formed; [done|]. by eapply safe_handleBy.
Qed.

Lemma run_preserves cs (w : World) x w' :
  well_formed w -> run cs w = Some (x, w') -> well_formed w'.
Proof.
  revert w. induction cs as [|c cs IH]; intros w Hwf H; simpl in H.
  - by injection H as _ <-.
  - unfold mbind, M_bind in H.
    destruct (perform c w) as [[y w1]|] eqn:Hc; [|done].
    eapply IH, H. by eapply perform_preserves.
Qed.

Lemma is_current_unique a (m : StateMachine States) I J :
  is_current a m I -> is_current a m J -> I = J.
Proof. intros [_ HI] [_ HJ]. congruence. Qed.

Lemma held_action_not_OneOf action Actions k options :
  held_action action <> OneOf Actions k options.
Proof. induction action; simpl; congruence. Qed.

(** On a live engine that designates a state of its own, [handle] runs to
    completion once every state type handles the event. *)
Lemma handle_total this e (w : World) m I :
  handlers_compile ->
  heap w !! this = Some m -> is_current this m I ->
  exists w', handle this e w = Some (tt, w').
Proof.
  intros Hc Hm Hcur.
  destruct (Hc I (get I (states m)) e) as (action & Hh & Ht); [by destruct Hcur|].
  erewrite handle_dispatch by eauto. rewrite execute_held_action.
  unfold target_listed in Ht.
  destruct (held_action action) as [|T|Actions k options] eqn:Hheld.
  - eauto.
  - erewrite execute_TransitionTo_own by (simpl; eauto). eauto.
  - by apply held_action_not_OneOf in Hheld.
Qed.

(** C2. After any sequence of constructions, copies, moves, assignments,
    [transitionTo], [handle] and [handleBy] calls that runs from the empty
    world, every live engine has exactly one current state: its variant
    holds, in alternative [I], the address of slot [I] of the engine's own
    tuple, never a null pointer and never a slot of another engine. Every
    further call keeps this so, and, when all state types handle the event,
    [handle] on any live engine runs to completion. *)
Theorem exactly_one_current cs (w : World) :
  run cs start = Some (tt, w) ->
  (forall a m, heap w !! a = Some m ->
     (exists I, is_current a m I /\ forall J, is_current a m J -> J = I) /\
     held (currentState m) <> nullptr /\
     forall b slot, held (currentState m) = address_of b slot -> b = a) /\
  (forall c x w', perform c w = Some (x, w') -> well_formed w') /\
  (handlers_compile -> forall this e, is_Some (heap w !! this) ->
     exists w', handle this e w = Some (tt, w') /\ well_formed w').
Proof.
  intros Hrun.
  assert (Hwf : well_formed w) by (eapply run_preserves, Hrun; apply well_formed_start).
  split_and!.
  - intros a m Hm. destruct (Hwf a m Hm) as [I HI]. split_and!.
    + exists I. split; [done|]. intros J HJ. by eapply is_current_unique.
    + destruct HI as [_ ->]. done.
    + destruct HI as [_ ->]. simpl. congruence.
  - intros c x w'. by apply perform_preserves.
  - intros Hc this e [m Hm]. destruct (Hwf this m Hm) as [I HI].
    destruct (handle_total this e w m I Hc Hm HI) as [w' Hw']. exists w'.
    split; [done|]. eapply extends_well_formed; [done|]. by eapply safe_handleBy.
Qed.

(** *** Independence of engines *)

(** [handle] on an engine that designates a state of its own touches no
    other engine. *)
Lemma handle_frame this e (w w' : World) m I :
  heap w !! this = Some m -> is_current this m I ->
  handle this e w = Some (tt, w') ->
  forall a, a <> this -> heap w' !! a = heap w !! a.
Proof.
  intros Hm Hcur H a Ha. erewrite handle_eq in H by eauto.
  destruct (handle_of I (get I (states m)) e) as [action|]; [|done].
  rewrite execute_held_action in H.
  destruct (held_action action) as [|T|Actions k options] eqn:Hheld.
  - by injection H as <-.
  - destruct (decide (T < size)) as [HT|HT].
    + erewrite execute_TransitionTo_own in H by (simpl; eauto).
      injection H as <-. simpl. by rewrite lookup_insert_ne.
    + erewrite execute_TransitionTo_unlisted in H by (simpl; eauto). done.
  - by apply held_action_not_OneOf in Hheld.
Qed.

Lemma handle_keeps_current this e (w w' : World) m I :
  heap w !! this = Some m -> is_current this m I ->
  handle this e w = Some (tt, w') ->
  exists m' I', heap w' !! this = Some m' /\ is_current this m' I'.
Proof.
  intros Hm Hcur H. apply safe_handleBy in H as [Hdom Hvar].
  destruct (Hdom this) as [m' Hm']; [by eauto|]. exists m'.
  destruct (Hvar this m' Hm') as [[I' HI']|(m0 & Hm0 & Heq)]; [by eauto|].
  exists I. split; [done|]. eapply is_current_variant; [|done]. congruence.
Qed.

(** Any number of events handled by one engine leave another engine as it
    was. *)
Lemma handles_frame this es (w w' : World) m I :
  heap w !! this = Some m -> is_current this m I ->
  run (map (Handle States Event this) es) w = Some (tt, w') ->
  forall a, a <> this -> heap w' !! a = heap w !! a.
Proof.
  revert w m I. induction es as [|e es IH]; intros w m I Hm Hcur H a Ha.
  - by injection H as <-.
  - simpl in H. unfold mbind at 1, M_bind in H.
    destruct (handle this e w) as [[[] w1]|] eqn:Hh; [|done].
    destruct (handle_keeps_current _ _ _ _ _ _ Hm Hcur Hh) as (m1 & I1 & Hm1 & Hc1).
    rewrite (IH w1 m1 I1 Hm1 Hc1 H a Ha). by eapply handle_frame.
Qed.

(** C3. Copy construction, move construction, copy assignment and move
    assignment from the engine [other], whose current state is its slot
    [B], give [this] the states of [other] (a move leaves [other] with what
    moving leaves behind) and a variant re-derived from the index [B] alone:
    it designates slot [B] of the tuple of [this], not the slot of [other].
    After a copy, switching the original to any state [C] leaves the copy
    with current state [B] and the copied data, and no number of events
    handled by the original (or by the copy) changes the other engine. *)
Theorem copy_rederives_current_by_index this other (w : World) o B :
  heap w !! other = Some o -> is_current other o B -> this <> other ->
  (heap w !! this = None ->
     StateMachine_copy this other w
       = Some (tt, mkWorld (<[this := copied this o]> (heap w)) (trace w)) /\
     StateMachine_move this other w
       = Some (tt, mkWorld (<[this := copied this o]>
                              (<[other := emptied o]> (heap w))) (trace w))) /\
  (is_Some (heap w !! this) ->
     copy_assign this other w
       = Some (this, mkWorld (<[this := copied this o]> (heap w)) (trace w)) /\
     move_assign this other w
       = Some (this, mkWorld (<[this := copied this o]>
                                (<[other := emptied o]> (heap w))) (trace w))) /\
  (states (copied this o) = states o /\
   currentState (copied this o) = mkVariant B (address_of this B) /\
   is_current this (copied this o) B /\
   currentState (emptied o) = currentState o) /\
  (heap w !! this = None -> forall C, C < size ->
     exists w1 state w2,
       StateMachine_copy this other w = Some (tt, w1) /\
       transitionTo other C w1 = Some (state, w2) /\
       heap w2 !! this = Some (copied this o) /\
       exists original, heap w2 !! other = Some original /\
                        is_current other original C) /\
  (heap w !! this = None -> forall w1,
     StateMachine_copy this other w = Some (tt, w1) ->
     (forall es w2, run (map (Handle States Event other) es) w1 = Some (tt, w2) ->
        heap w2 !! this = Some (copied this o)) /\
     (forall es w2, run (map (Handle States Event this) es) w1 = Some (tt, w2) ->
        heap w2 !! other = Some o)).
Proof.
  intros Ho [HB Hcur] Hne.
  assert (Hidx : index (currentState o) = B) by (by rewrite Hcur).
  assert (Hcopy : heap w !! this = None ->
            StateMachine_copy this other w
              = Some (tt, mkWorld (<[this := copied this o]> (heap w)) (trace w))).
  { intros Hfresh. rewrite StateMachine_copy_eq, Ho, Hfresh, Hidx.
    by destruct (decide (B < size)). }
  split; [|split; [|split; [|split]]].
  - intros Hfresh. split; [by apply Hcopy|].
    rewrite StateMachine_move_eq, Ho, Hfresh, Hidx.
    by destruct (decide (B < size)).
  - intros [m Hm]. rewrite copy_assign_eq, move_assign_eq by done.
    rewrite Ho, Hm, Hidx. by destruct (decide (B < size)).
  - unfold fsm.copied, fsm.emptied. rewrite Hidx. simpl.
    repeat split; done.
  - intros Hfresh C HC. eexists _, _, _. split; [by apply Hcopy|].
    split; [apply transitionTo_live; [done|]; simpl;
            by rewrite lookup_insert_ne|].
    simpl. split.
    + by rewrite lookup_insert_ne, lookup_insert_eq.
    + eexists. split; [apply lookup_insert_eq|]. by split.
  - intros Hfresh w1 Hw1. rewrite Hcopy in Hw1 by done. injection Hw1 as <-.
    set (w1 := mkWorld (<[this := copied this o]> (heap w)) (trace w)).
    split.
    + intros es w2 Hrun.
      pose proof (handles_frame other es w1 w2 o B) as HF. simpl in HF.
      rewrite lookup_insert_ne in HF by done.
      rewrite (HF Ho (conj HB Hcur) Hrun this Hne). apply lookup_insert_eq.
    + intros es w2 Hrun.
      pose proof (handles_frame this es w1 w2 (copied this o) B) as HF.
      simpl in HF. rewrite lookup_insert_eq in HF.
      assert (Hc : is_current this (copied this o) B).
      { unfold fsm.copied. rewrite Hidx. by split. }
      rewrite (HF eq_refl Hc Hrun other (not_eq_sym Hne)).
      by rewrite lookup_insert_ne.
Qed.

End EngineFacts.

(** ** Actions *)

Lemma ActionTy_nested_ind (P : ActionTy -> Prop) :
  P TNothing ->
  (forall T, P (TTransitionTo T)) ->
  (forall Actions, Forall P Actions -> P (TOneOf Actions)) ->
  forall A, P A.
Proof.
  intros HN HT HO. fix IH 1. intros [|T|Actions]; [exact HN|apply HT|].
  apply HO. revert Actions. fix IHl 1.
  intros [|A Actions]; constructor; [apply IH|apply IHl].
Qed.

Lemma ActionTy_eqb_eq A B : ActionTy_eqb A B = true <-> A = B.
Proof.
  revert B. induction A as [|T|Actions IH] using ActionTy_nested_ind;
    intros [|T'|Actions']; simpl; try (split; intros; congruence).
  - rewrite Nat.eqb_eq. split; congruence.
  - transitivity (Actions = Actions'); [|split; congruence].
    revert Actions'. induction IH as [|A Actions HA _ IHl]; intros [|A' Actions'];
      try (split; intros; congruence).
    rewrite andb_true_iff, HA, IHl. split; [intros [-> ->]; done|].
    intros [= -> ->]. done.
Qed.

Lemma alternatives_of_spec T Actions k j :
  j ∈ alternatives_of T Actions k <-> k <= j /\ Actions !! (j - k) = Some T.
Proof.
  revert k. induction Actions as [|A Actions IH]; intros k; simpl.
  - rewrite elem_of_nil. split; [done|]. by intros [_ ?].
  - assert (Htail : j ∈ alternatives_of T Actions (S k) <->
                    k < j /\ (A :: Actions) !! (j - k) = Some T).
    { rewrite IH. split.
      - intros [Hle Hj]. split; [lia|].
        by replace (j - k) with (S (j - S k)) by lia.
      - intros [Hlt Hj]. split; [lia|].
        by replace (j - k) with (S (j - S k)) in Hj by lia. }
    destruct (ActionTy_eqb A T) eqn:Heq.
    + apply ActionTy_eqb_eq in Heq as ->. rewrite elem_of_cons, Htail.
      split.
      * intros [->|[Hlt Hj]]; [|split; [lia|done]].
        split; [lia|]. by rewrite Nat.sub_diag.
      * intros [Hle Hj]. destruct (decide (j = k)) as [->|Hne]; [by left|].
        right. split; [lia|done].
    + rewrite Htail. split; [intros [Hlt Hj]; split; [lia|done]|].
      intros [Hle Hj]. destruct (decide (j = k)) as [->|Hne].
      * rewrite Nat.sub_diag in Hj. injection Hj as ->.
        assert (ActionTy_eqb T T = true) by by apply ActionTy_eqb_eq.
        congruence.
      * split; [lia|done].
Qed.

Lemma OneOf_ctor_Some Actions arg v :
  OneOf_ctor Actions arg = Some v ->
  exists k, v = OneOf Actions k arg /\
            Actions !! k = Some (type_of arg) /\
            forall j, Actions !! j = Some (type_of arg) -> j = k.
Proof.
  unfold OneOf_ctor. intros H.
  destruct (alternatives_of (type_of arg) Actions 0) as [|k [|k' ks]] eqn:Halt;
    try done.
  injection H as <-. exists k. split; [done|].
  assert (Hspec : forall j, j ∈ [k] <-> Actions !! j = Some (type_of arg)).
  { intros j. rewrite <- Halt, alternatives_of_spec, Nat.sub_0_r.
    split; [by intros [_ ?]|]. intros ?. split; [lia|done]. }
  split.
  - apply Hspec. by apply list_elem_of_singleton.
  - intros j Hj. apply Hspec in Hj. by apply list_elem_of_singleton in Hj.
Qed.

Lemma type_of_TNothing arg : type_of arg = TNothing -> arg = Nothing.
Proof. by destruct arg. Qed.

Section ActionFacts.

Context (States : list Type) (Event : Type).
Context (onEnter_of onLeave_of :
          forall I, Event -> option (tuple_element I States -> tuple_element I States)).

Local Abbreviation execute := (execute States Event onEnter_of onLeave_of).

(** C8. A [OneOf<Actions...>] built from [arg] holds that one action, in
    the single alternative whose type is the type of [arg]; [execute] on any
    [OneOf] value is [execute] of the action held, on the same arguments.
    [Maybe<A>] is [OneOf<A, Nothing>] with its constructor, so a [Maybe<A>]
    value holds either an [A], whose [execute] it performs, or [Nothing], and
    then does nothing. *)
Theorem OneOf_executes_held Actions arg v :
  OneOf_ctor Actions arg = Some v ->
  (exists k, v = OneOf Actions k arg /\
             Actions !! k = Some (type_of arg) /\
             forall j, Actions !! j = Some (type_of arg) -> j = k) /\
  (forall machine I state e,
     execute v machine I state e = execute arg machine I state e) /\
  (forall Actions' k held machine I state e,
     execute (OneOf Actions' k held) machine I state e
       = execute held machine I state e) /\
  (forall A, Maybe A = TOneOf [A; TNothing] /\
             forall arg', Maybe_ctor A arg' = OneOf_ctor [A; TNothing] arg') /\
  (forall A, Actions = [A; TNothing] ->
     (type_of arg = A /\ v = OneOf [A; TNothing] 0 arg) \/
     (arg = Nothing /\ v = OneOf [A; TNothing] 1 Nothing /\
      forall machine I state e w, execute v machine I state e w = Some (tt, w))).
Proof.
  intros Hv. destruct (OneOf_ctor_Some _ _ _ Hv) as (k & -> & Hk & Huniq).
  split; [by eauto|]. split; [done|]. split; [done|]. split; [done|].
  intros A ->. destruct k as [|[|k]]; simpl in Hk.
  - left. split; [congruence|done].
  - right. injection Hk as Hk. symmetry in Hk.
    apply type_of_TNothing in Hk as ->. done.
  - by rewrite lookup_nil in Hk.
Qed.

End ActionFacts.

(** ** Handlers *)



(** ** The door of example/main.cpp *)

(** C7. [main]: the door is built with states Closed, Open and
    Locked(key = 0x11) and starts in Closed. [Lock(1234)] makes Locked
    current and its [onEnter] sets the key to 1234. [Unlock(2)] does not
    match: the handler returns a [Maybe] holding [Nothing], and the door is
    unchanged, still Locked with key 1234. [Unlock(1234)] matches: the handler
    returns a [Maybe] holding the transition, and Closed becomes current. *)
Theorem door_scenario :
  exists w0 w1 w2 w3 : Door.DoorWorld,
    Door.construct Door.start = Some (tt, w0) /\
    heap w0 !! Door.door = Some (Door.door_object 0x11%Z Door.Closed) /\
    Door.door_handle (Door.LockEvent 1234%Z) w0 = Some (tt, w1) /\
    heap w1 !! Door.door = Some (Door.door_object 1234%Z Door.Locked) /\
    trace w1 =
      [ObsHandle Door.door (Door.LockEvent 1234%Z);
       ObsTransitionTo Door.door Door.Locked;
       ObsEnter (address_of Door.door Door.Locked) (Door.LockEvent 1234%Z)
         (Some (mkVariant Door.Locked (address_of Door.door Door.Locked)))] /\
    Door.LockedState_handle (Door.mkLockedState 1234%Z) (Door.UnlockEvent 2%Z)
      = Some (OneOf [TTransitionTo Door.Closed; TNothing] 1 Nothing) /\
    Door.door_handle (Door.UnlockEvent 2%Z) w1 = Some (tt, w2) /\
    heap w2 = heap w1 /\
    Door.LockedState_handle (Door.mkLockedState 1234%Z) (Door.UnlockEvent 1234%Z)
      = Some (OneOf [TTransitionTo Door.Closed; TNothing] 0
                (TransitionTo Door.Closed)) /\
    Door.door_handle (Door.UnlockEvent 1234%Z) w2 = Some (tt, w3) /\
    heap w3 !! Door.door = Some (Door.door_object 1234%Z Door.Closed) /\
    Door.main3 Door.start = Some (tt, w3).
Proof.
  eexists _, _, _, _.
  split; [vm_compute; reflexivity|].
  split; [vm_compute; reflexivity|].
  split; [vm_compute; reflexivity|].
  split; [vm_compute; reflexivity|].
  split; [vm_compute; reflexivity|].
  split; [vm_compute; reflexivity|].
  split; [vm_compute; reflexivity|].
  split; [vm_compute; reflexivity|].
  split; [vm_compute; reflexivity|].
  split; [vm_compute; reflexivity|].
  split; vm_compute; reflexivity.
Qed.

(** ** The general statements at the door *)

(** The transition of the door from Closed to Locked on [Lock(1234)]. *)
Lemma transition_leave_switch_enter_witness :
  heap (Door.world_of (Door.door_object 0x11%Z Door.Closed)) !! Door.door
    = Some (Door.door_object 0x11%Z Door.Closed) /\
  exists w',
    Door.door_handle (Door.LockEvent 1234%Z)
      (Door.world_of (Door.door_object 0x11%Z Door.Closed)) = Some (tt, w') /\
    heap w' !! Door.door = Some (Door.door_object 1234%Z Door.Locked).
Proof.
  split; [reflexivity|]. eexists. split.
  - apply (transition_leave_switch_enter Door.States Door.Event Door.handle_of
             Door.onEnter_of Door.onLeave_of Door.door Door.door
             (Door.LockEvent 1234%Z)
             (Door.world_of (Door.door_object 0x11%Z Door.Closed))
             (Door.door_object 0x11%Z Door.Closed) Door.Closed
             (TransitionTo Door.Locked) Door.Locked).
    + reflexivity.
    + split; [vm_compute; lia|reflexivity].
    + reflexivity.
    + reflexivity.
    + vm_compute; lia.
    + eexists. reflexivity.
  - vm_compute. reflexivity.
Defined.

(** The invariant after constructing the door and handling two events. *)
Lemma exactly_one_current_witness :
  run Door.States Door.Event Door.handle_of Door.onEnter_of Door.onLeave_of
    Door.moved_from Door.calls Door.start = Some (tt, Door.after_calls) /\
  forall a m, heap Door.after_calls !! a = Some m ->
    exists I, is_current Door.States a m I /\
              forall J, is_current Door.States a m J -> J = I.
Proof.
  assert (H : run Door.States Door.Event Door.handle_of Door.onEnter_of
                Door.onLeave_of Door.moved_from Door.calls Door.start
              = Some (tt, Door.after_calls)) by (vm_compute; reflexivity).
  split; [exact H|]. intros a m Hm.
  exact (proj1 (proj1 (exactly_one_current Door.States Door.Event Door.handle_of
                         Door.onEnter_of Door.onLeave_of Door.moved_from
                         Door.calls Door.after_calls H) a m Hm)).
Defined.

(** Copying the locked door to a second address. *)
Lemma copy_rederives_current_by_index_witness :
  heap (Door.world_of (Door.door_object 1234%Z Door.Locked)) !! Door.door
    = Some (Door.door_object 1234%Z Door.Locked) /\
  is_current Door.States Door.door (Door.door_object 1234%Z Door.Locked) Door.Locked /\
  2%positive <> Door.door /\
  StateMachine_copy Door.States Door.Event 2%positive Door.door
    (Door.world_of (Door.door_object 1234%Z Door.Locked))
  = Some (tt, mkWorld
                (<[2%positive := copied Door.States 2%positive
                                   (Door.door_object 1234%Z Door.Locked)]>
                   (heap (Door.world_of (Door.door_object 1234%Z Door.Locked))))
                []).
Proof.
  assert (H1 : heap (Door.world_of (Door.door_object 1234%Z Door.Locked)) !! Door.door
               = Some (Door.door_object 1234%Z Door.Locked)) by reflexivity.
  assert (H2 : is_current Door.States Door.door
                 (Door.door_object 1234%Z Door.Locked) Door.Locked)
    by (split; [vm_compute; lia|reflexivity]).
  assert (H3 : 2%positive <> Door.door) by discriminate.
  split; [exact H1|]. split; [exact H2|]. split; [exact H3|].
  apply (copy_rederives_current_by_index Door.States Door.Event Door.handle_of
           Door.onEnter_of Door.onLeave_of Door.moved_from 2%positive Door.door
           _ _ Door.Locked H1 H2 H3).
  reflexivity.
Defined.

(** Both constructors of [StateMachine<ClosedState, OpenState>]. *)
Lemma constructors_start_in_first_state_witness :
  0 < size Door.States2 /\
  heap (start Door.States2 Door.Event) !! Door.door = None /\
  StateMachine_default Door.States2 Door.Event
    (Some (Door.mkClosedState, (Door.mkOpenState, tt))) Door.door
    (start Door.States2 Door.Event)
  = Some (tt, mkWorld
                (<[Door.door := @mkStateMachine Door.States2
                                  (Door.mkClosedState, (Door.mkOpenState, tt))
                                  (mkVariant 0 (address_of Door.door 0))]> ∅) []).
Proof.
  assert (H1 : 0 < size Door.States2) by (vm_compute; lia).
  assert (H2 : heap (start Door.States2 Door.Event) !! Door.door = None)
    by reflexivity.
  split; [exact H1|]. split; [exact H2|].
  apply (constructors_start_in_first_state Door.States2 Door.Event Door.door
           (start Door.States2 Door.Event) H1 H2
           (Door.mkClosedState, (Door.mkOpenState, tt))).
Defined.

(** Switching the closed door to Open by hand. *)
Lemma transitionTo_bookkeeping_witness :
  Door.Open < size Door.States /\
  exists state w',
    transitionTo Door.States Door.Event Door.door Door.Open
      (Door.world_of (Door.door_object 0x11%Z Door.Closed)) = Some (state, w') /\
    state = address_of Door.door Door.Open.
Proof.
  assert (H1 : Door.Open < size Door.States) by (vm_compute; lia).
  split; [exact H1|].
  destruct (transitionTo_bookkeeping Door.States Door.Event Door.door Door.Open
              (Door.world_of (Door.door_object 0x11%Z Door.Closed))
              (Door.door_object 0x11%Z Door.Closed) H1 eq_refl)
    as (state & w' & Hrun & Hstate & _).
  exists state, w'. split; [exact Hrun|exact Hstate].
Defined.

(** The [Maybe<TransitionTo<ClosedState>>] built from the transition. *)
Lemma OneOf_executes_held_witness :
  Maybe_ctor (TTransitionTo Door.Closed) (TransitionTo Door.Closed)
    = Some (OneOf [TTransitionTo Door.Closed; TNothing] 0 (TransitionTo Door.Closed)) /\
  forall machine I state e,
    execute Door.States Door.Event Door.onEnter_of Door.onLeave_of
      (OneOf [TTransitionTo Door.Closed; TNothing] 0 (TransitionTo Door.Closed))
      machine I state e
    = execute Door.States Door.Event Door.onEnter_of Door.onLeave_of
        (TransitionTo Door.Closed) machine I state e.
Proof.
  split; [reflexivity|].
  apply (OneOf_executes_held Door.States Door.Event Door.onEnter_of
           Door.onLeave_of [TTransitionTo Door.Closed; TNothing]
           (TransitionTo Door.Closed)
           (OneOf [TTransitionTo Door.Closed; TNothing] 0 (TransitionTo Door.Closed))
           eq_refl).
Defined.


(** * Further properties of the engine *)

Lemma runtime_get_Some n t i v :
  TupleTools.runtime_get n t i = Some v ->
  i < n /\ v = mkVariant i (address_of t i).
Proof.
  intros H. destruct (decide (i < n)) as [Hi|Hi].
  - rewrite runtime_get_lt in H by done. by injection H as <-.
  - by rewrite runtime_get_ge in H by lia.
Qed.

(** *** [runtime_get] on tuples, pairs and arrays *)

Lemma positions_of_spec T alts k j :
  j ∈ TupleLike.positions_of T alts k <-> k <= j /\ alts !! (j - k) = Some T.
Proof.
  revert k. induction alts as [|A alts IH]; intros k; simpl.
  - rewrite elem_of_nil. split; [done|]. by intros [_ ?].
  - assert (Htail : j ∈ TupleLike.positions_of T alts (S k) <->
                    k < j /\ (A :: alts) !! (j - k) = Some T).
    { rewrite IH. split.
      - intros [Hle Hj]. split; [lia|].
        by replace (j - k) with (S (j - S k)) by lia.
      - intros [Hlt Hj]. split; [lia|].
        by replace (j - k) with (S (j - S k)) in Hj by lia. }
    destruct (decide (A = T)) as [->|Hne].
    + rewrite elem_of_cons, Htail. split.
      * intros [->|[Hlt Hj]]; [|split; [lia|done]].
        split; [lia|]. by rewrite Nat.sub_diag.
      * intros [Hle Hj]. destruct (decide (j = k)) as [->|Hjk]; [by left|].
        right. split; [lia|done].
    + rewrite Htail. split; [intros [Hlt Hj]; split; [lia|done]|].
      intros [Hle Hj]. destruct (decide (j = k)) as [->|Hjk].
      * rewrite Nat.sub_diag in Hj. by injection Hj.
      * split; [lia|done].
Qed.

Lemma positions_of_NoDup T alts k : NoDup (TupleLike.positions_of T alts k).
Proof.
  revert k. induction alts as [|A alts IH]; intros k; simpl.
  - constructor.
  - destruct (decide (A = T)); [|apply IH]. constructor; [|apply IH].
    rewrite positions_of_spec. lia.
Qed.

Lemma positions_of_listed T alts j :
  j ∈ TupleLike.positions_of T alts 0 <-> alts !! j = Some T.
Proof.
  rewrite positions_of_spec, Nat.sub_0_r. split; [by intros [_ ?]|].
  intros ?. split; [lia|done].
Qed.

(** A list of positions without repetition whose members all are [k], and
    which has [k], is [[k]]. *)
Lemma only_position (l : list nat) k :
  NoDup l -> k ∈ l -> (forall j, j ∈ l -> j = k) -> l = [k].
Proof.
  intros Hnd Hk Hall. destruct l as [|x [|y l]].
  - by apply elem_of_nil in Hk.
  - by rewrite (Hall x) by apply list_elem_of_here.
  - assert (x = k) by apply Hall, list_elem_of_here.
    assert (y = k) by apply Hall, list_elem_of_further, list_elem_of_here.
    subst. apply NoDup_cons in Hnd as [Hnd _].
    destruct Hnd. apply list_elem_of_here.
Qed.

Lemma positions_of_distinct T alts i :
  NoDup alts -> alts !! i = Some T -> TupleLike.positions_of T alts 0 = [i].
Proof.
  intros Hnd Hi. apply only_position.
  - apply positions_of_NoDup.
  - by apply positions_of_listed.
  - intros j Hj. apply positions_of_listed in Hj.
    by apply (proj1 (NoDup_alt alts) Hnd j i T).
Qed.

Lemma mapM_all_Some {A B} (f : A -> option B) (g : A -> B) (l : list A) :
  (forall x, x ∈ l -> f x = Some (g x)) -> mapM f l = Some (g <$> l).
Proof.
  induction l as [|x l IH]; intros H; [done|]. simpl.
  rewrite (H x) by apply list_elem_of_here. simpl.
  rewrite IH; [done|]. intros y Hy. apply H. by apply list_elem_of_further.
Qed.

(** For element types that are pairwise distinct, each in the alternative
    of its own position, the table is the engine's table. *)
Lemma lookup_table_distinct c :
  TupleLike.commonTemplateTuplele_access c = TupleLike.elements c ->
  NoDup (TupleLike.elements c) ->
  TupleLike.lookup_table c
    = Some (TupleTools.lookup_table (TupleLike.tuple_size c)).
Proof.
  intros Halts Hnd. unfold TupleLike.lookup_table, TupleTools.lookup_table.
  apply mapM_all_Some. intros Ind HInd.
  apply elem_of_seq in HInd as [_ HInd]. simpl in HInd.
  unfold TupleLike.accessTemplateTuplele.
  destruct (TupleLike.elements c !! Ind) as [T|] eqn:HT.
  - rewrite Halts, (positions_of_distinct T _ Ind) by done. reflexivity.
  - apply lookup_ge_None in HT. unfold TupleLike.tuple_size in HInd. lia.
Qed.

Lemma runtime_get_distinct c t i :
  TupleLike.commonTemplateTuplele_access c = TupleLike.elements c ->
  NoDup (TupleLike.elements c) -> TupleLike.elements c <> [] ->
  TupleLike.runtime_get c t i
    = TupleTools.runtime_get (TupleLike.tuple_size c) t i.
Proof.
  intros Halts Hnd Hne. unfold TupleLike.runtime_get.
  rewrite Halts. destruct (TupleLike.elements c) eqn:He; [done|].
  unfold TupleLike.call_access_function.
  rewrite lookup_table_distinct by (by rewrite ?He). reflexivity.
Qed.

(** Two positions holding the same type, in a list with a repetition. *)
Lemma repeated_type (l : list TupleLike.type_id) :
  ~ NoDup l -> exists i j T, i < j /\ l !! i = Some T /\ l !! j = Some T.
Proof.
  induction l as [|x l IH]; intros Hnd.
  - destruct Hnd. constructor.
  - destruct (decide (x ∈ l)) as [Hin|Hnin].
    + apply list_elem_of_lookup in Hin as [j Hj].
      exists 0, (S j), x. split; [lia|]. by split.
    + destruct IH as (i & j & T & Hij & Hi & Hj).
      { intros Hl. apply Hnd. by constructor. }
      exists (S i), (S j), T. split; [lia|]. by split.
Qed.

Lemma accessTemplateTuplele_ambiguous c i j T :
  i <> j ->
  TupleLike.elements c !! i = Some T ->
  TupleLike.commonTemplateTuplele_access c !! i = Some T ->
  TupleLike.commonTemplateTuplele_access c !! j = Some T ->
  TupleLike.accessTemplateTuplele c i = None.
Proof.
  intros Hne He Hi Hj. unfold TupleLike.accessTemplateTuplele. rewrite He.
  apply positions_of_listed in Hi, Hj.
  destruct (TupleLike.positions_of T _ 0) as [|x [|y l]]; [done| |done].
  apply list_elem_of_singleton in Hi, Hj. congruence.
Qed.

(** X1. [runtime_get(t, i)] on a [std::tuple] or [std::pair] whose element
    types are pairwise distinct, as the states of an engine are: it is
    defined exactly for the indices below the size; its result then has [i]
    as active alternative and holds the address of element [i] of [t]; and
    it is what the engine's own table gives. *)
Theorem runtime_get_characterised Ts t i :
  NoDup Ts -> Ts <> [] ->
  TupleLike.runtime_get (TupleLike.std_tuple Ts) t i
    = TupleTools.runtime_get (length Ts) t i /\
  (forall v, TupleLike.runtime_get (TupleLike.std_tuple Ts) t i = Some v <->
             i < length Ts /\ v = mkVariant i (address_of t i)) /\
  (TupleLike.runtime_get (TupleLike.std_tuple Ts) t i = None <-> length Ts <= i) /\
  (forall T1 T2 v, T1 <> T2 ->
     (TupleLike.runtime_get (TupleLike.std_pair T1 T2) t i = Some v <->
      i < 2 /\ v = mkVariant i (address_of t i))).
Proof.
  intros Hnd Hne.
  assert (Heq : TupleLike.runtime_get (TupleLike.std_tuple Ts) t i
                = TupleTools.runtime_get (length Ts) t i)
    by (by apply (runtime_get_distinct (TupleLike.std_tuple Ts))).
  split; [exact Heq|]. rewrite Heq. split; [|split].
  - intros v. split; [apply runtime_get_Some|].
    intros [Hi ->]. by apply runtime_get_lt.
  - split.
    + intros H. destruct (decide (i < length Ts)) as [Hi|Hi]; [|lia].
      by rewrite runtime_get_lt in H by done.
    + apply runtime_get_ge.
  - intros T1 T2 v HT.
    rewrite (runtime_get_distinct (TupleLike.std_pair T1 T2)); [| done | | done].
    + split; [apply runtime_get_Some|]. intros [Hi ->]. by apply runtime_get_lt.
    + simpl. apply NoDup_cons. split; [|apply NoDup_singleton].
      by intros ->%list_elem_of_singleton.
Qed.

Lemma lookup_table_array T N :
  TupleLike.lookup_table (TupleLike.std_array T N)
    = Some ((fun Ind t => mkVariant 0 (address_of t Ind)) <$> seq 0 N).
Proof.
  unfold TupleLike.lookup_table, TupleLike.tuple_size. simpl.
  rewrite length_replicate. apply mapM_all_Some. intros Ind HInd.
  apply elem_of_seq in HInd as [_ HInd]. simpl in HInd.
  unfold TupleLike.accessTemplateTuplele. simpl.
  rewrite lookup_replicate_2 by done.
  by destruct (decide (T = T)).
Qed.

(** X16. [runtime_get(t, i)] on a [std::array<T, N>]: it is defined exactly
    for [i < N], and the variant returned, of type [std::variant<T*>],
    always has alternative 0 active, whatever [i]; it holds the address of
    element [i]. The index of the result does not tell the element. *)
Theorem runtime_get_array T N t i v :
  TupleLike.runtime_get (TupleLike.std_array T N) t i = Some v <->
  i < N /\ v = mkVariant 0 (address_of t i).
Proof.
  unfold TupleLike.runtime_get, TupleLike.call_access_function. simpl.
  rewrite lookup_table_array, list_lookup_fmap.
  destruct (decide (i < N)) as [Hi|Hi].
  - rewrite lookup_seq_lt by done. simpl. split.
    + intros [= <-]. done.
    + intros [_ ->]. done.
  - rewrite lookup_seq_ge by lia. simpl. split; [done|]. intros [? _]. lia.
Qed.

(** X17. [runtime_get] cannot be used on a tuple in which an element type
    occurs twice, nor on a pair of two elements of the same type: the
    pointer to such an element fits two alternatives of the variant, the
    accessor for it does not compile, and with it the whole table, so no
    index gives a result. *)
Theorem runtime_get_repeated_type Ts :
  ~ NoDup Ts ->
  (forall t i, TupleLike.runtime_get (TupleLike.std_tuple Ts) t i = None) /\
  (forall T t i, TupleLike.runtime_get (TupleLike.std_pair T T) t i = None).
Proof.
  intros Hnd.
  assert (Htable : forall c,
            TupleLike.commonTemplateTuplele_access c = TupleLike.elements c ->
            ~ NoDup (TupleLike.elements c) -> TupleLike.lookup_table c = None).
  { intros c Halts Hc.
    destruct (repeated_type _ Hc) as (i & j & T & Hij & Hi & Hj).
    apply mapM_None_2, Exists_exists. exists i. split.
    - apply elem_of_seq. apply lookup_lt_Some in Hi.
      unfold TupleLike.tuple_size. lia.
    - apply (accessTemplateTuplele_ambiguous c i j T); rewrite ?Halts; [lia|done..]. }
  split.
  - intros t i. unfold TupleLike.runtime_get, TupleLike.call_access_function.
    rewrite (Htable (TupleLike.std_tuple Ts)) by done.
    by destruct (TupleLike.commonTemplateTuplele_access _).
  - intros T t i. unfold TupleLike.runtime_get, TupleLike.call_access_function.
    rewrite (Htable (TupleLike.std_pair T T)); [done|done|].
    simpl. intros [Hin _]%NoDup_cons. apply Hin, list_elem_of_here.
Qed.

Section EngineExtras.

Context (States : list Type) (Event : Type).
Context (handle_of : forall I, tuple_element I States -> Event -> option Action).
Context (onEnter_of onLeave_of :
          forall I, Event -> option (tuple_element I States -> tuple_element I States)).
Context (moved_from : tuple States -> tuple States).

Local Abbreviation World := (World States Event).
Local Abbreviation size := (size States).
Local Abbreviation start := (start States Event).
Local Abbreviation transitionTo := (transitionTo States Event).
Local Abbreviation StateMachine_ctor := (StateMachine_ctor States Event).
Local Abbreviation StateMachine_default := (StateMachine_default States Event).
Local Abbreviation StateMachine_copy := (StateMachine_copy States Event).
Local Abbreviation StateMachine_move := (StateMachine_move States Event moved_from).
Local Abbreviation StateMachine_dtor := (StateMachine_dtor States Event).
Local Abbreviation copy_assign := (copy_assign States Event).
Local Abbreviation move_assign := (move_assign States Event moved_from).
Local Abbreviation execute := (execute States Event onEnter_of onLeave_of).
Local Abbreviation handleBy := (handleBy States Event handle_of onEnter_of onLeave_of).
Local Abbreviation handle := (handle States Event handle_of onEnter_of onLeave_of).
Local Abbreviation perform :=
  (perform States Event handle_of onEnter_of onLeave_of moved_from).
Local Abbreviation run := (run States Event handle_of onEnter_of onLeave_of moved_from).
Local Abbreviation is_current := (is_current States).
Local Abbreviation well_formed := (well_formed States Event).
Local Abbreviation handlers_compile := (handlers_compile States Event handle_of).
Local Abbreviation hooked := (hooked States).
Local Abbreviation transitioned := (transitioned States Event onEnter_of onLeave_of).
Local Abbreviation left := (left States Event onLeave_of).
Local Abbreviation entered := (entered States Event onEnter_of).
Local Abbreviation transition_observed :=
  (transition_observed States Event onEnter_of onLeave_of).
Local Abbreviation copied := (copied States).

Lemma get_hooked_other I J h (t : tuple States) :
  I <> J -> get J (hooked I h t) = get J t.
Proof.
  intros Hne. unfold fsm.hooked. destruct h; [|done]. by apply get_put_other.
Qed.

Lemma get_hooked_same I h (t : tuple States) :
  I < size -> get I (hooked I h t) = apply_hook h (get I t).
Proof.
  intros HI. unfold fsm.hooked, apply_hook. destruct h; [|done].
  by apply get_put_same.
Qed.

(** What [handle] can do to the world, whatever action the handler returns. *)
Lemma handle_outcomes this e (w w' : World) m I :
  heap w !! this = Some m -> is_current this m I ->
  handle this e w = Some (tt, w') ->
  w' = mkWorld (heap w) (trace w ++ [ObsHandle this e]) \/
  exists T, T < size /\
    w' = mkWorld (<[this := transitioned this I T e m]> (heap w))
           (trace w ++ transition_observed this this I T e).
Proof.
  intros Hm Hcur H.
  erewrite (handle_eq States Event handle_of onEnter_of onLeave_of) in H by eauto.
  destruct (handle_of I (get I (states m)) e) as [action|]; [|done].
  rewrite execute_held_action in H.
  destruct (held_action action) as [|T|Actions k options] eqn:Hheld.
  - left. by injection H as <-.
  - destruct (decide (T < size)) as [HT|HT].
    + right. exists T. split; [done|].
      erewrite execute_TransitionTo_own in H by (simpl; eauto).
      injection H as <-. simpl. unfold fsm.transition_observed.
      destruct Hcur as [_ ->]. by rewrite <- !app_assoc.
    + erewrite execute_TransitionTo_unlisted in H by (simpl; eauto). done.
  - by apply held_action_not_OneOf in Hheld.
Qed.

Lemma handle_transitions this e (w : World) m I action T :
  heap w !! this = Some m -> is_current this m I ->
  handle_of I (get I (states m)) e = Some action ->
  held_action action = TransitionTo T -> T < size ->
  handle this e w =
    Some (tt, mkWorld (<[this := transitioned this I T e m]> (heap w))
                (trace w ++ transition_observed this this I T e)).
Proof.
  intros Hm Hcur Hh Hheld HT.
  erewrite (handle_dispatch States Event handle_of onEnter_of onLeave_of)
    by eauto.
  rewrite execute_held_action, Hheld.
  erewrite execute_TransitionTo_own by (simpl; eauto).
  simpl. unfold fsm.transition_observed. destruct Hcur as [_ ->].
  by rewrite <- !app_assoc.
Qed.

Lemma handle_stays this e (w : World) m I action :
  heap w !! this = Some m -> is_current this m I ->
  handle_of I (get I (states m)) e = Some action ->
  held_action action = Nothing ->
  handle this e w = Some (tt, mkWorld (heap w) (trace w ++ [ObsHandle this e])).
Proof.
  intros Hm Hcur Hh Hheld.
  erewrite (handle_dispatch States Event handle_of onEnter_of onLeave_of)
    by eauto.
  by rewrite execute_held_action, Hheld.
Qed.

(** X3. The footprint of [handle]: the engine stays alive and designates a
    state of its own; every state instance of its tuple other than the state
    left and the state entered keeps its data; every other engine is
    untouched, and no engine is created or destroyed. *)
Theorem handle_footprint this e (w w' : World) m I :
  heap w !! this = Some m -> is_current this m I ->
  handle this e w = Some (tt, w') ->
  exists m' T,
    heap w' !! this = Some m' /\ is_current this m' T /\
    (forall J, J <> I -> J <> T -> get J (states m') = get J (states m)) /\
    (forall a, a <> this -> heap w' !! a = heap w !! a) /\
    (forall a, is_Some (heap w' !! a) <-> is_Some (heap w !! a)).
Proof.
  intros Hm Hcur H.
  destruct (handle_outcomes this e w w' m I Hm Hcur H) as [->|(T & HT & ->)].
  - exists m, I. simpl. split_and!; done.
  - exists (transitioned this I T e m), T. simpl. split_and!.
    + apply lookup_insert_eq.
    + by split.
    + intros J HI HJ. by rewrite !get_hooked_other.
    + intros a Ha. by rewrite lookup_insert_ne.
    + intros a. destruct (decide (this = a)) as [<-|Ha].
      * rewrite lookup_insert_eq, Hm. split; eauto.
      * by rewrite lookup_insert_ne.
Qed.

(** X4. A transition of a state to itself is not a no-op: the state stays
    current, and its data goes through [onLeave] and then [onEnter] (each
    skipped when not declared); the other states keep their data. *)
Theorem self_transition_runs_both_hooks this e (w : World) m I action :
  heap w !! this = Some m -> is_current this m I ->
  handle_of I (get I (states m)) e = Some action ->
  held_action action = TransitionTo I ->
  exists w' m',
    handle this e w = Some (tt, w') /\ heap w' !! this = Some m' /\
    is_current this m' I /\
    get I (states m')
      = apply_hook (onEnter_of I e) (apply_hook (onLeave_of I e) (get I (states m))) /\
    forall J, J <> I -> get J (states m') = get J (states m).
Proof.
  intros Hm Hcur Hh Hheld. destruct Hcur as [HI Hcur].
  eexists _, (transitioned this I I e m). split.
  { erewrite (handle_dispatch States Event handle_of onEnter_of onLeave_of);
      [|done|by split|done].
    rewrite execute_held_action, Hheld.
    by erewrite execute_TransitionTo_own by (simpl; eauto). }
  simpl. split; [apply lookup_insert_eq|]. split; [by split|]. split.
  - by rewrite !get_hooked_same.
  - intros J HJ. by rewrite !get_hooked_other.
Qed.

(** X5. [handleBy(event, machine)] with another engine as [machine]: the
    event is handled by the current state of the engine called, but it is
    the other engine that switches. The engine called keeps its current
    state, whose [onLeave] hook has run; [machine] has the target as current
    state, whose [onEnter] hook has run on the instance of [machine]; all
    other engines are untouched. *)
Theorem handleBy_switches_the_machine_given this machine e (w : World)
  m mm I action T :
  this <> machine ->
  heap w !! this = Some m -> is_current this m I ->
  heap w !! machine = Some mm ->
  handle_of I (get I (states m)) e = Some action ->
  held_action action = TransitionTo T -> T < size ->
  exists w',
    handleBy this e machine w = Some (tt, w') /\
    heap w' !! this = Some (left I e m) /\
    is_current this (left I e m) I /\
    heap w' !! machine = Some (entered machine T e mm) /\
    is_current machine (entered machine T e mm) T /\
    get T (states (entered machine T e mm))
      = apply_hook (onEnter_of T e) (get T (states mm)) /\
    forall a, a <> this -> a <> machine -> heap w' !! a = heap w !! a.
Proof.
  intros Hne Hm Hcur Hmm Hh Hheld HT. eexists. split.
  { erewrite (handleBy_eq States Event handle_of onEnter_of onLeave_of) by eauto.
    rewrite Hh, execute_held_action, Hheld.
    erewrite execute_TransitionTo_live; [done|done| |done]. simpl.
    by rewrite lookup_insert_ne. }
  simpl. split_and!.
  - by rewrite lookup_insert_ne, lookup_insert_eq.
  - destruct Hcur. by split.
  - apply lookup_insert_eq.
  - by split.
  - by apply get_hooked_same.
  - intros a Ha1 Ha2. by rewrite !lookup_insert_ne.
Qed.

(** X6. Calls of [transitionTo] do not accumulate: after switching to [A]
    and then to [B] the engines are exactly as after switching to [B]
    alone, and the second call returns the same reference. *)
Theorem transitionTo_last_wins this A B (w : World) m :
  heap w !! this = Some m -> A < size -> B < size ->
  exists stateA w1 stateB w2 w2',
    transitionTo this A w = Some (stateA, w1) /\
    transitionTo this B w1 = Some (stateB, w2) /\
    transitionTo this B w = Some (stateB, w2') /\
    heap w2 = heap w2'.
Proof.
  intros Hm HA HB. eexists _, _, _, _, _.
  split; [by apply transitionTo_live|].
  split; [apply transitionTo_live; [done|]; simpl; apply lookup_insert_eq|].
  split; [by apply transitionTo_live|].
  simpl. by rewrite insert_insert_eq.
Qed.

Lemma StateMachine_dtor_live this (w : World) m :
  heap w !! this = Some m ->
  StateMachine_dtor this w = Some (tt, mkWorld (delete this (heap w)) (trace w)).
Proof. intros Hm. unfold fsm.StateMachine_dtor. by rewrite Hm. Qed.

(** X7. A copy outlives the engine it was copied from. After copying
    [other] to [this] and destroying [other], the copy is alive, designates
    its own instance of the state that was current in [other], no engine
    left in the world refers to the destroyed one, and the copy handles any
    event as long as every state type handles it. *)
Theorem copy_outlives_original this other e (w : World) o B :
  well_formed w -> handlers_compile ->
  heap w !! other = Some o -> is_current other o B ->
  heap w !! this = None ->
  exists w1 w2 w3,
    StateMachine_copy this other w = Some (tt, w1) /\
    StateMachine_dtor other w1 = Some (tt, w2) /\
    heap w2 !! other = None /\
    heap w2 !! this = Some (copied this o) /\
    is_current this (copied this o) B /\
    well_formed w2 /\
    (forall a m, heap w2 !! a = Some m ->
       forall slot, held (currentState m) <> address_of other slot) /\
    handle this e w2 = Some (tt, w3).
Proof.
  intros Hwf Hc Ho Hcur Hfresh. assert (Hne : this <> other) by congruence.
  assert (Hidx : index (currentState o) = B) by (destruct Hcur as [_ ->]; done).
  assert (Hcopied : is_current this (copied this o) B).
  { unfold fsm.copied. rewrite Hidx. split; [by destruct Hcur|done]. }
  set (w1 := mkWorld (<[this := copied this o]> (heap w)) (trace w)).
  set (w2 := mkWorld (delete other (heap w1)) (trace w1)).
  assert (Hthis : heap w2 !! this = Some (copied this o)).
  { simpl. by rewrite lookup_delete_ne, lookup_insert_eq. }
  assert (Hwf2 : well_formed w2).
  { intros a m Hm. simpl in Hm. destruct (decide (a = other)) as [->|Ha].
    - by rewrite lookup_delete_eq in Hm.
    - rewrite lookup_delete_ne in Hm by done.
      destruct (decide (a = this)) as [->|Ha'].
      + rewrite lookup_insert_eq in Hm. injection Hm as <-. eauto.
      + rewrite lookup_insert_ne in Hm by done. by apply Hwf. }
  destruct (handle_total States Event handle_of onEnter_of onLeave_of
              this e w2 (copied this o) B Hc Hthis Hcopied) as [w3 Hw3].
  exists w1, w2, w3. split_and!; try done.
  - rewrite StateMachine_copy_eq, Ho, Hfresh, Hidx.
    destruct Hcur as [HB _]. by destruct (decide (B < size)).
  - apply StateMachine_dtor_live with (m := o). simpl.
    by rewrite lookup_insert_ne.
  - simpl. apply lookup_delete_eq.
  - intros a m Hm slot Hheld. destruct (Hwf2 a m Hm) as [J [_ HJ]].
    rewrite HJ in Hheld. simpl in Hheld. injection Hheld as -> _.
    simpl in Hm. by rewrite lookup_delete_eq in Hm.
Qed.

(** X8. Copying a copy gives what copying the original gives: the same
    states, and a variant for the same index, designating the slot of the
    newest engine. *)
Theorem copy_of_copy this middle other (w : World) o :
  heap w !! other = Some o -> index (currentState o) < size ->
  heap w !! middle = None -> heap w !! this = None -> this <> middle ->
  exists w1 w2 w2',
    StateMachine_copy middle other w = Some (tt, w1) /\
    StateMachine_copy this middle w1 = Some (tt, w2) /\
    StateMachine_copy this other w = Some (tt, w2') /\
    heap w2 !! this = Some (copied this o) /\
    heap w2' !! this = Some (copied this o) /\
    heap w2 !! other = Some o.
Proof.
  intros Ho Hidx Hmid Hthis Hne.
  assert (middle <> other) by congruence. assert (this <> other) by congruence.
  eexists _, _, _. split.
  { rewrite StateMachine_copy_eq, Ho, Hmid.
    by destruct (decide (index (currentState o) < size)). }
  split.
  { rewrite StateMachine_copy_eq. simpl.
    rewrite lookup_insert_eq, lookup_insert_ne, Hthis by done. simpl.
    by destruct (decide (index (currentState o) < size)). }
  split.
  { rewrite StateMachine_copy_eq, Ho, Hthis.
    by destruct (decide (index (currentState o) < size)). }
  simpl. split_and!.
  - by rewrite lookup_insert_eq.
  - by rewrite lookup_insert_eq.
  - by rewrite !lookup_insert_ne.
Qed.

(** X9. Copy assignment there and back: after [b = a; a = b;] the engine
    [a] is exactly what it was (its variant again designating its own slot),
    and [b] holds the states of [a] with the same state current. Assigning
    the same engine twice is the same as assigning it once. *)
Theorem copy_assign_round_trip a b (w : World) ma mb A :
  a <> b -> heap w !! a = Some ma -> is_current a ma A ->
  heap w !! b = Some mb ->
  exists w1 w2 w1',
    copy_assign b a w = Some (b, w1) /\
    copy_assign a b w1 = Some (a, w2) /\
    heap w2 !! a = Some ma /\
    heap w2 !! b = Some (copied b ma) /\
    is_current b (copied b ma) A /\
    copy_assign b a w1 = Some (b, w1') /\ heap w1' = heap w1.
Proof.
  intros Hne Ha [HA Hcur] Hb.
  assert (Hidx : index (currentState ma) = A) by (by rewrite Hcur).
  assert (Hback : copied a (copied b ma) = ma).
  { destruct ma as [sa ca]. simpl in *. subst ca. reflexivity. }
  eexists _, _, _. split.
  { rewrite copy_assign_eq, Ha, Hb, Hidx by done.
    by destruct (decide (A < size)). }
  split.
  { rewrite copy_assign_eq by done. simpl.
    rewrite lookup_insert_eq, lookup_insert_ne, Ha by done. simpl.
    rewrite Hidx. by destruct (decide (A < size)). }
  simpl. split_and!.
  - by rewrite lookup_insert_eq, Hback.
  - by rewrite lookup_insert_ne, lookup_insert_eq.
  - unfold fsm.copied. rewrite Hidx. by split.
  - rewrite copy_assign_eq by done. simpl.
    rewrite lookup_insert_eq, lookup_insert_ne, Ha, Hidx by done.
    by destruct (decide (A < size)).
  - simpl. by rewrite insert_insert_eq.
Qed.

Lemma assign_to_itself this (w : World) :
  copy_assign this this w = Some (this, w) /\
  move_assign this this w = Some (this, w).
Proof.
  unfold fsm.copy_assign, fsm.move_assign, mbind, M_bind, mret, M_ret.
  destruct (decide (this <> this)) as [Hne|_]; [by destruct Hne|]. done.
Qed.

Lemma perform_empty c (w : World) x w' :
  size = 0 -> heap w = ∅ -> perform c w = Some (x, w') -> heap w' = ∅.
Proof.
  intros Hn He H. destruct c as [d this|init this|this other|this other
    |this other|this other|this State|this e|this e machine]; simpl in H.
  - rewrite StateMachine_default_eq in H. destruct d; [|done].
    rewrite StateMachine_ctor_eq in H. destruct (decide (0 < size)); [lia|done].
  - rewrite StateMachine_ctor_eq in H. destruct (decide (0 < size)); [lia|done].
  - rewrite StateMachine_copy_eq, He, lookup_empty in H. done.
  - rewrite (StateMachine_move_eq States Event moved_from), He, lookup_empty in H.
    done.
  - unfold mbind, M_bind in H.
    destruct (decide (this = other)) as [<-|Hne].
    + destruct (assign_to_itself this w) as [Hs _]. rewrite Hs in H.
      by injection H as _ <-.
    + rewrite copy_assign_eq, He, lookup_empty in H by done. done.
  - unfold mbind, M_bind in H.
    destruct (decide (this = other)) as [<-|Hne].
    + destruct (assign_to_itself this w) as [_ Hs]. rewrite Hs in H.
      by injection H as _ <-.
    + rewrite (move_assign_eq States Event moved_from), He, lookup_empty in H
        by done. done.
  - unfold mbind, M_bind, fsm.transitionTo in H.
    destruct (decide (State < size)); [lia|done].
  - unfold fsm.handle, fsm.handleBy, mbind, M_bind, observe, machine_at in H.
    simpl in H. by rewrite He, lookup_empty in H.
  - unfold fsm.handleBy, mbind, M_bind, observe, machine_at in H.
    simpl in H. by rewrite He, lookup_empty in H.
Qed.

(** X10. [StateMachine<>], the engine over no state type at all, cannot
    exist: neither constructor is defined, so no sequence of calls ever
    brings an engine of that type to life. *)
Theorem no_engine_without_states cs (w : World) :
  size = 0 -> run cs start = Some (tt, w) -> heap w = ∅.
Proof.
  intros Hn. assert (Hstart : heap start = ∅) by done. revert Hstart.
  generalize start as w0. induction cs as [|c cs IH]; intros w0 He H; simpl in H.
  - by injection H as <-.
  - unfold mbind, M_bind in H.
    destruct (perform c w0) as [[y w1]|] eqn:Hc; [|done].
    apply (IH w1); [|done]. by eapply perform_empty.
Qed.

End EngineExtras.

(** ** Handlers that may modify their state *)

Section NonConstFacts.

Context (States : list Type) (Event : Type).
Context (handle_of :
          forall I, tuple_element I States -> Event
                    -> option (Action * tuple_element I States)).
Context (onEnter_of onLeave_of :
          forall I, Event -> option (tuple_element I States -> tuple_element I States)).

Local Abbreviation World := (World States Event).
Local Abbreviation size := (size States).
Local Abbreviation execute := (execute States Event onEnter_of onLeave_of).
Local Abbreviation handleBy :=
  (NonConst.handleBy States Event handle_of onEnter_of onLeave_of).
Local Abbreviation handle :=
  (NonConst.handle States Event handle_of onEnter_of onLeave_of).
Local Abbreviation handled := (NonConst.handled States).
Local Abbreviation is_current := (is_current States).
Local Abbreviation transitioned := (transitioned States Event onEnter_of onLeave_of).
Local Abbreviation transition_observed :=
  (transition_observed States Event onEnter_of onLeave_of).

(** [handleBy] up to the call of the action's [execute]: the handler has
    run and left its state in the tuple. *)
Lemma handleBy_after_handler this e machine (w : World) m I :
  heap w !! this = Some m -> is_current this m I ->
  handleBy this e machine w =
    match handle_of I (get I (states m)) e with
    | Some r =>
        execute (fst r) machine I (address_of this I) e
          (mkWorld (<[this := handled I (snd r) m]> (heap w))
             (trace w ++ [ObsHandle this e]))
    | None => None
    end.
Proof.
  intros Hm [HI Hcur]. unfold NonConst.handleBy.
  unfold mbind at 1 2, M_bind, observe, machine_at. simpl. rewrite Hm, Hcur.
  simpl. unfold mbind at 1, M_bind. erewrite deref_own by (simpl; exact Hm).
  unfold mbind at 1, M_bind, lift.
  destruct (handle_of I (get I (states m)) e) as [r|]; [|done].
  unfold mbind, M_bind.
  by erewrite assign_through_own by (simpl; exact Hm).
Qed.

Lemma handled_unchanged I (m : StateMachine States) :
  handled I (get I (states m)) m = m.
Proof. unfold NonConst.handled. by rewrite put_get, machine_eta. Qed.

(** C6. When the current state handles [e] with an action that performs
    [Nothing] (returned directly, or held in a [OneOf]) and the handler
    leaves the state it is called on as it is, as a [const] handler does,
    [handle] leaves the heap of engines as it was: same current state, same
    data in every state instance, for this engine and all others; so does
    [handleBy] whatever engine it is given. Only the dispatch itself is
    observed. *)
Theorem const_handler_Nothing_unchanged this e (w : World) m I action :
  heap w !! this = Some m -> is_current this m I ->
  handle_of I (get I (states m)) e = Some (action, get I (states m)) ->
  held_action action = Nothing ->
  handle this e w = Some (tt, mkWorld (heap w) (trace w ++ [ObsHandle this e])) /\
  forall machine,
    handleBy this e machine w
      = Some (tt, mkWorld (heap w) (trace w ++ [ObsHandle this e])).
Proof.
  intros Hm Hcur Hh Hheld.
  assert (H : forall machine,
             handleBy this e machine w
               = Some (tt, mkWorld (heap w) (trace w ++ [ObsHandle this e]))).
  { intros machine. erewrite handleBy_after_handler by eauto.
    rewrite Hh. simpl. rewrite handled_unchanged, insert_id by done.
    by rewrite execute_held_action, Hheld. }
  split; [apply H|exact H].
Qed.

(** X2. One call of [handle] performs at most one transition. The handler
    may have changed the data of the current state (a [const] handler
    changes nothing); beyond that, whatever action it returns, however
    deeply wrapped in [OneOf], the engines are either left as they are, with
    nothing but the dispatch observed, or the engine goes through exactly
    one leave / switch / enter sequence to one listed target state. *)
Theorem handle_at_most_one_transition this e (w w' : World) m I :
  heap w !! this = Some m -> is_current this m I ->
  handle this e w = Some (tt, w') ->
  exists action s',
    handle_of I (get I (states m)) e = Some (action, s') /\
    (s' = get I (states m) -> handled I s' m = m) /\
    ((heap w' = <[this := handled I s' m]> (heap w) /\
      trace w' = trace w ++ [ObsHandle this e]) \/
     (exists T, T < size /\
        heap w' = <[this := transitioned this I T e (handled I s' m)]> (heap w) /\
        trace w' = trace w ++ transition_observed this this I T e)).
Proof.
  intros Hm Hcur H. unfold NonConst.handle in H.
  erewrite handleBy_after_handler in H by eauto.
  destruct (handle_of I (get I (states m)) e) as [[action s']|]; [|done].
  exists action, s'. split; [done|].
  split; [intros ->; apply handled_unchanged|].
  simpl in H. rewrite execute_held_action in H.
  destruct (held_action action) as [|T|Actions k options] eqn:Hheld.
  - left. by injection H as <-.
  - right. exists T. destruct (decide (T < size)) as [HT|HT].
    + split; [done|].
      erewrite (execute_TransitionTo_own States Event) in H;
        [|simpl; apply lookup_insert_eq|done].
      injection H as <-. simpl. rewrite insert_insert_eq.
      split; [done|]. unfold fsm.transition_observed.
      destruct Hcur as [_ ->]. by rewrite <- !app_assoc.
    + erewrite (execute_TransitionTo_unlisted States Event) in H;
        [done|simpl; apply lookup_insert_eq|done].
  - by apply held_action_not_OneOf in Hheld.
Qed.

End NonConstFacts.

(** For handlers that are [const], [NonConst.handleBy] is [handleBy]. *)
Lemma handleBy_const_handlers (States : list Type) (Event : Type)
  (handle_of : forall I, tuple_element I States -> Event -> option Action)
  (onEnter_of onLeave_of :
     forall I, Event -> option (tuple_element I States -> tuple_element I States))
  this e machine (w : World States Event) :
  NonConst.handleBy States Event (NonConst.const_handlers handle_of)
    onEnter_of onLeave_of this e machine w
  = handleBy States Event handle_of onEnter_of onLeave_of this e machine w.
Proof.
  unfold NonConst.handleBy, fsm.handleBy.
  unfold mbind, M_bind, observe, machine_at, lift. simpl.
  destruct (heap w !! this) as [m|]; [|done].
  generalize (mkWorld (heap w) (trace w ++ [ObsHandle this e])). intros w1.
  unfold deref, assign_through.
  destruct (held (currentState m)) as [|owner slot]; [done|].
  destruct (decide (slot = index (currentState m))) as [_|]; [|done].
  unfold mbind, M_bind, mret, M_ret, machine_at, update_machine,
    NonConst.const_handlers.
  destruct (heap w1 !! owner) as [mo|] eqn:Ho; [|done].
  destruct (handle_of _ _ e) as [action|]; [|done]. simpl.
  by rewrite Ho, put_get, machine_eta, insert_id, world_eta by done.
Qed.

(** The tally counts an event it answers with [Nothing]: the handler
    returns [Nothing], and yet the state's data, and so the heap, differ
    after [handle]. *)
Lemma handle_Nothing_changes_state :
  Tally.handle_of 0 (get 0 (states (Tally.object 5))) tt = Some (Nothing, 6) /\
  Tally.handle tt (Tally.world 5) = Some (tt, Tally.counted 5) /\
  heap (Tally.counted 5) !! Tally.tally = Some (Tally.object 6) /\
  heap (Tally.world 5) !! Tally.tally = Some (Tally.object 5) /\
  heap (Tally.counted 5) <> heap (Tally.world 5).
Proof.
  split; [reflexivity|]. split; [vm_compute; reflexivity|].
  split; [reflexivity|]. split; [reflexivity|].
  intros H. apply (f_equal (fun h => h !! Tally.tally)) in H.
  vm_compute in H. discriminate H.
Qed.

(** ** Further properties of the actions *)

Lemma alternatives_of_NoDup T Actions k : NoDup (alternatives_of T Actions k).
Proof.
  revert k. induction Actions as [|A Actions IH]; intros k; simpl.
  - constructor.
  - destruct (ActionTy_eqb A T); [|apply IH]. constructor; [|apply IH].
    rewrite alternatives_of_spec. lia.
Qed.

Lemma alternatives_of_listed T Actions j :
  j ∈ alternatives_of T Actions 0 <-> Actions !! j = Some T.
Proof.
  rewrite alternatives_of_spec, Nat.sub_0_r. split; [by intros [_ ?]|].
  intros ?. split; [lia|done].
Qed.

(** X11. A [OneOf<Actions...>] can be built from any [Nothing] or
    [TransitionTo<T>] value whose type is listed exactly once among
    [Actions...], whatever else is listed, and then holds it in the
    alternative at that position. (For an argument that is itself a [OneOf]
    the outcome also depends on how it is passed, which is not modelled.) *)
Theorem OneOf_ctor_unambiguous Actions arg k :
  held_action arg = arg ->
  Actions !! k = Some (type_of arg) ->
  (forall j, Actions !! j = Some (type_of arg) -> j = k) ->
  OneOf_ctor Actions arg = Some (OneOf Actions k arg).
Proof.
  intros _ Hk Huniq. unfold OneOf_ctor.
  pose proof (alternatives_of_NoDup (type_of arg) Actions 0) as Hnd.
  pose proof (alternatives_of_listed (type_of arg) Actions) as Hin.
  destruct (alternatives_of (type_of arg) Actions 0) as [|x [|y l]].
  - apply Hin in Hk. by apply elem_of_nil in Hk.
  - assert (x = k) as ->; [|done].
    apply Huniq, Hin, list_elem_of_here.
  - assert (x = k) by apply Huniq, Hin, list_elem_of_here.
    assert (y = k) by apply Huniq, Hin, list_elem_of_further, list_elem_of_here.
    subst. apply NoDup_cons in Hnd as [Hnd _].
    destruct Hnd. apply list_elem_of_here.
Qed.

(** X12. A [OneOf] that lists the same action type twice cannot be built
    from an action of that type: the alternative to activate is ambiguous.
    In particular [Maybe<Nothing>] cannot be built from [Nothing]. *)
Theorem OneOf_ctor_ambiguous Actions arg j k :
  j <> k ->
  Actions !! j = Some (type_of arg) -> Actions !! k = Some (type_of arg) ->
  OneOf_ctor Actions arg = None /\ Maybe_ctor TNothing Nothing = None.
Proof.
  intros Hne Hj Hk. split; [|done]. unfold OneOf_ctor.
  pose proof (alternatives_of_listed (type_of arg) Actions) as Hin.
  apply Hin in Hj, Hk.
  destruct (alternatives_of (type_of arg) Actions 0) as [|x [|y l]]; [|exfalso|done].
  - by apply elem_of_nil in Hj.
  - apply list_elem_of_singleton in Hj, Hk. congruence.
Qed.


(** ** Further properties of the door *)

Lemma LockedState_handle_eq (self : Door.LockedState) e :
  Door.LockedState_handle self e =
    match e with
    | Door.UnlockEvent e_key =>
        if (e_key =? Door.key self)%Z
        then Some (OneOf [TTransitionTo Door.Closed; TNothing] 0
                     (TransitionTo Door.Closed))
        else Some (OneOf [TTransitionTo Door.Closed; TNothing] 1 Nothing)
    | _ => Some Nothing
    end.
Proof. by destruct e. Qed.

Ltac door_moves tgt :=
  eexists; split;
  [ eapply (handle_transitions Door.States Door.Event) with (T := tgt);
    [eassumption|eassumption|reflexivity|reflexivity|vm_compute; lia]
  | reflexivity ].

Ltac door_stays :=
  eexists; split;
  [ eapply (handle_stays Door.States Door.Event);
    [eassumption|eassumption|reflexivity|reflexivity]
  | simpl; by rewrite insert_id ].

(** One event handled by the door is one step of the diagram. *)
Lemma door_step e current k (w : Door.DoorWorld) :
  heap w !! Door.door = Some (Door.door_object k current) -> current < 3 ->
  exists w',
    Door.door_handle e w = Some (tt, w') /\
    heap w' = <[Door.door := Door.door_object (snd (Door.step current k e))
                               (fst (Door.step current k e))]> (heap w).
Proof.
  intros Hm Hc. unfold Door.door_handle.
  assert (Hcur : is_current Door.States Door.door
                   (Door.door_object k current) current).
  { split; [exact Hc|reflexivity]. }
  destruct current as [|[|[|current]]]; [| | |vm_compute in Hc; lia].
  - destruct e as [| | newKey | e_key].
    + door_moves 1.
    + door_stays.
    + door_moves 2.
    + door_stays.
  - destruct e as [| | newKey | e_key].
    + door_stays.
    + door_moves 0.
    + door_stays.
    + door_stays.
  - destruct e as [| | newKey | e_key]; try door_stays.
    simpl. destruct (e_key =? k)%Z eqn:Hk.
    + eexists; split;
        [ eapply (handle_transitions Door.States Door.Event) with (T := 0)
            (action := OneOf [TTransitionTo Door.Closed; TNothing] 0
                         (TransitionTo Door.Closed));
          [eassumption|eassumption| |reflexivity|vm_compute; lia]
        | reflexivity ].
      change (Door.LockedState_handle (Door.mkLockedState k)
                (Door.UnlockEvent e_key)
              = Some (OneOf [TTransitionTo Door.Closed; TNothing] 0
                        (TransitionTo Door.Closed))).
      rewrite LockedState_handle_eq. simpl. by rewrite Hk.
    + eexists; split;
        [ eapply (handle_stays Door.States Door.Event) with
            (action := OneOf [TTransitionTo Door.Closed; TNothing] 1 Nothing);
          [eassumption|eassumption| |reflexivity]
        | simpl; by rewrite insert_id ].
      change (Door.LockedState_handle (Door.mkLockedState k)
                (Door.UnlockEvent e_key)
              = Some (OneOf [TTransitionTo Door.Closed; TNothing] 1 Nothing)).
      rewrite LockedState_handle_eq. simpl. by rewrite Hk.
Qed.

Lemma step_listed current k e : current < 3 -> fst (Door.step current k e) < 3.
Proof.
  intros Hc. unfold Door.step, Door.Locked, Door.Open, Door.Closed.
  destruct current as [|[|[|current]]]; [| | |lia];
    destruct e; simpl; try lia.
  destruct (_ =? _)%Z; simpl; lia.
Qed.

Lemma steps_cons current k e es :
  Door.steps current k (e :: es)
  = Door.steps (fst (Door.step current k e)) (snd (Door.step current k e)) es.
Proof. unfold Door.steps. simpl. by destruct (Door.step current k e). Qed.

Local Abbreviation door_run :=
  (run Door.States Door.Event Door.handle_of Door.onEnter_of Door.onLeave_of
     Door.moved_from).

(** X13. The door engine implements the door diagram: from any of its
    three states and with any key stored, handling a sequence of events
    never fails and leaves the door in the state, and with the key, that
    following the diagram event by event gives; nothing else in the world
    changes. *)
Theorem door_runs_as_diagram es current k (w : Door.DoorWorld) :
  heap w !! Door.door = Some (Door.door_object k current) -> current < 3 ->
  exists w',
    door_run (map (Handle Door.States Door.Event Door.door) es) w
      = Some (tt, w') /\
    fst (Door.steps current k es) < 3 /\
    heap w' = <[Door.door := Door.door_object (snd (Door.steps current k es))
                               (fst (Door.steps current k es))]> (heap w).
Proof.
  revert current k w. induction es as [|e es IH]; intros current k w Hm Hc.
  - exists w. split; [done|]. split; [done|]. simpl. by rewrite insert_id.
  - destruct (door_step e current k w Hm Hc) as (w1 & Hw1 & Hh1).
    destruct (IH (fst (Door.step current k e)) (snd (Door.step current k e)) w1)
      as (w' & Hrun & Hlisted & Hh').
    { rewrite Hh1. apply lookup_insert_eq. }
    { by apply step_listed. }
    exists w'. rewrite steps_cons. split.
    { simpl. unfold mbind, M_bind.
      change (handle Door.States Door.Event Door.handle_of Door.onEnter_of
                Door.onLeave_of Door.door e w)
        with (Door.door_handle e w).
      by rewrite Hw1. }
    split; [exact Hlisted|].
    rewrite Hh', Hh1, insert_insert_eq. reflexivity.
Qed.

(** X14. A locked door stays locked: whatever events it is given, as long
    as none is an Unlock carrying the key it holds, the door remains in
    Locked with the same key, and the whole heap is unchanged. *)
Theorem locked_door_stays_locked es k (w : Door.DoorWorld) :
  heap w !! Door.door = Some (Door.door_object k Door.Locked) ->
  Forall (fun e => e <> Door.UnlockEvent k) es ->
  exists w',
    door_run (map (Handle Door.States Door.Event Door.door) es) w
      = Some (tt, w') /\
    heap w' = heap w.
Proof.
  intros Hm Hes. revert w Hm. induction Hes as [|e es He _ IH]; intros w Hm.
  - by exists w.
  - destruct (door_step e Door.Locked k w Hm) as (w1 & Hw1 & Hh1);
      [vm_compute; lia|].
    assert (Hstay : Door.step Door.Locked k e = (Door.Locked, k)).
    { destruct e as [| | newKey | e_key]; try reflexivity. simpl.
      destruct (e_key =? k)%Z eqn:Hk; [|done].
      apply Z.eqb_eq in Hk. congruence. }
    rewrite Hstay in Hh1. simpl in Hh1. rewrite insert_id in Hh1 by done.
    destruct (IH w1) as (w' & Hrun & Hh'); [by rewrite Hh1|].
    exists w'. split; [|congruence].
    simpl. unfold mbind, M_bind.
    change (handle Door.States Door.Event Door.handle_of Door.onEnter_of
              Door.onLeave_of Door.door e w)
      with (Door.door_handle e w).
    by rewrite Hw1.
Qed.

(** X15. Locking and unlocking with any key: a closed door, whatever key
    its [LockedState] held before, is Locked with key [k] after [Lock(k)];
    an [Unlock] with another key changes nothing, and [Unlock(k)] brings the
    door back to Closed. The key the [LockedState] was constructed with
    never decides. *)
Theorem lock_unlock_round_trip k0 k k' (w : Door.DoorWorld) :
  heap w !! Door.door = Some (Door.door_object k0 Door.Closed) -> k' <> k ->
  exists w1 w2 w3,
    Door.door_handle (Door.LockEvent k) w = Some (tt, w1) /\
    heap w1 !! Door.door = Some (Door.door_object k Door.Locked) /\
    Door.door_handle (Door.UnlockEvent k') w1 = Some (tt, w2) /\
    heap w2 = heap w1 /\
    Door.door_handle (Door.UnlockEvent k) w2 = Some (tt, w3) /\
    heap w3 !! Door.door = Some (Door.door_object k Door.Closed).
Proof.
  intros Hm Hk.
  destruct (door_step (Door.LockEvent k) Door.Closed k0 w Hm) as (w1 & Hw1 & Hh1);
    [vm_compute; lia|].
  simpl in Hh1.
  assert (Hm1 : heap w1 !! Door.door = Some (Door.door_object k Door.Locked)).
  { rewrite Hh1. apply lookup_insert_eq. }
  destruct (door_step (Door.UnlockEvent k') Door.Locked k w1 Hm1)
    as (w2 & Hw2 & Hh2); [vm_compute; lia|].
  simpl in Hh2. destruct (k' =? k)%Z eqn:Hkk; [apply Z.eqb_eq in Hkk; done|].
  simpl in Hh2. rewrite insert_id in Hh2 by done.
  assert (Hm2 : heap w2 !! Door.door = Some (Door.door_object k Door.Locked))
    by (by rewrite Hh2).
  destruct (door_step (Door.UnlockEvent k) Door.Locked k w2 Hm2)
    as (w3 & Hw3 & Hh3); [vm_compute; lia|].
  simpl in Hh3. rewrite Z.eqb_refl in Hh3. simpl in Hh3.
  exists w1, w2, w3. split_and!; try done.
  rewrite Hh3. apply lookup_insert_eq.
Qed.

(** ** The further properties at the door and at the counter *)

Lemma door_handlers_compile :
  handlers_compile Door.States Door.Event Door.handle_of.
Proof.
  intros I s e HI. destruct I as [|[|[|I]]]; simpl in s.
  - destruct e; eexists; (split; [reflexivity|]); vm_compute; lia.
  - destruct e; eexists; (split; [reflexivity|]); vm_compute; lia.
  - change (Door.handle_of 2 s e) with (Door.LockedState_handle s e).
    rewrite LockedState_handle_eq.
    destruct e as [| | newKey | e_key];
      try (eexists; split; [reflexivity|]; vm_compute; lia).
    destruct (e_key =? Door.key s)%Z; eexists; (split; [reflexivity|]);
      vm_compute; lia.
  - vm_compute in HI. lia.
Qed.

Lemma door_world_well_formed k current :
  current < 3 ->
  well_formed Door.States Door.Event (Door.world_of (Door.door_object k current)).
Proof.
  intros Hc a m Hm. simpl in Hm. destruct (decide (a = Door.door)) as [->|Ha].
  - rewrite lookup_insert_eq in Hm. injection Hm as <-. exists current. by split.
  - rewrite lookup_insert_ne, lookup_empty in Hm by done. done.
Qed.

Local Abbreviation closed_door :=
  (Door.world_of (Door.door_object 0x11%Z Door.Closed)).
Local Abbreviation locked_door :=
  (Door.world_of (Door.door_object 1234%Z Door.Locked)).

(** The footprint of locking the closed door. *)
Lemma handle_footprint_witness :
  Door.door_handle (Door.LockEvent 1234%Z) closed_door = Some (tt, Door.after_lock) /\
  exists m' T,
    heap Door.after_lock !! Door.door = Some m' /\
    is_current Door.States Door.door m' T.
Proof.
  assert (H : Door.door_handle (Door.LockEvent 1234%Z) closed_door
              = Some (tt, Door.after_lock)) by (vm_compute; reflexivity).
  split; [exact H|].
  destruct (handle_footprint Door.States Door.Event Door.handle_of
              Door.onEnter_of Door.onLeave_of Door.door (Door.LockEvent 1234%Z)
              closed_door Door.after_lock (Door.door_object 0x11%Z Door.Closed)
              Door.Closed eq_refl
              (conj (Nat.lt_0_succ 2) eq_refl) H)
    as (m' & T & Hm' & Hcur & _).
  exists m', T. split; [exact Hm'|exact Hcur].
Defined.

(** The counter re-entering its only state. *)
Lemma self_transition_runs_both_hooks_witness :
  heap (Loop.world 5) !! Loop.counter = Some (Loop.object 5) /\
  exists w' m',
    handle Loop.States unit Loop.handle_of Loop.onEnter_of Loop.onLeave_of
      Loop.counter tt (Loop.world 5) = Some (tt, w') /\
    heap w' !! Loop.counter = Some m' /\
    get 0 (states m') = 6.
Proof.
  split; [reflexivity|].
  destruct (self_transition_runs_both_hooks Loop.States unit Loop.handle_of
              Loop.onEnter_of Loop.onLeave_of Loop.counter tt (Loop.world 5)
              (Loop.object 5) 0 (TransitionTo 0) eq_refl
              (conj (Nat.lt_0_succ 0) eq_refl) eq_refl eq_refl)
    as (w' & m' & Hh & Hm' & _ & Hdata & _).
  exists w', m'. split; [exact Hh|]. split; [exact Hm'|exact Hdata].
Defined.

(** The first door handling [Lock] on behalf of the second door. *)
Lemma handleBy_switches_the_machine_given_witness :
  Door.door <> Door.door2 /\
  exists w',
    handleBy Door.States Door.Event Door.handle_of Door.onEnter_of
      Door.onLeave_of Door.door (Door.LockEvent 1234%Z) Door.door2
      Door.two_doors = Some (tt, w') /\
    heap w' !! Door.door = Some (Door.door_object 0x11%Z Door.Closed) /\
    heap w' !! Door.door2 = Some (Door.object_at Door.door2 1234%Z Door.Locked).
Proof.
  assert (Hne : Door.door <> Door.door2) by discriminate.
  split; [exact Hne|].
  destruct (handleBy_switches_the_machine_given Door.States Door.Event
              Door.handle_of Door.onEnter_of Door.onLeave_of Door.door
              Door.door2 (Door.LockEvent 1234%Z) Door.two_doors
              (Door.door_object 0x11%Z Door.Closed)
              (Door.object_at Door.door2 0x22%Z Door.Closed) Door.Closed
              (TransitionTo Door.Locked) Door.Locked Hne eq_refl
              (conj (Nat.lt_0_succ 2) eq_refl) eq_refl eq_refl eq_refl
              (Nat.lt_succ_diag_r 2))
    as (w' & Hh & Hthis & _ & Hmachine & _).
  exists w'. split; [exact Hh|]. split; [exact Hthis|exact Hmachine].
Defined.

(** Switching the closed door to Open and then to Locked by hand. *)
Lemma transitionTo_last_wins_witness :
  Door.Open < size Door.States /\ Door.Locked < size Door.States /\
  exists stateA w1 stateB w2 w2',
    transitionTo Door.States Door.Event Door.door Door.Open closed_door
      = Some (stateA, w1) /\
    transitionTo Door.States Door.Event Door.door Door.Locked w1
      = Some (stateB, w2) /\
    transitionTo Door.States Door.Event Door.door Door.Locked closed_door
      = Some (stateB, w2') /\
    heap w2 = heap w2'.
Proof.
  assert (HA : Door.Open < size Door.States) by (vm_compute; lia).
  assert (HB : Door.Locked < size Door.States) by (vm_compute; lia).
  split; [exact HA|]. split; [exact HB|].
  exact (transitionTo_last_wins Door.States Door.Event Door.door Door.Open
           Door.Locked closed_door (Door.door_object 0x11%Z Door.Closed)
           eq_refl HA HB).
Defined.

(** A copy of the locked door surviving the door. *)
Lemma copy_outlives_original_witness :
  heap locked_door !! Door.door2 = None /\
  exists w1 w2 w3,
    StateMachine_copy Door.States Door.Event Door.door2 Door.door locked_door
      = Some (tt, w1) /\
    StateMachine_dtor Door.States Door.Event Door.door w1 = Some (tt, w2) /\
    heap w2 !! Door.door = None /\
    handle Door.States Door.Event Door.handle_of Door.onEnter_of Door.onLeave_of
      Door.door2 (Door.UnlockEvent 1234%Z) w2 = Some (tt, w3).
Proof.
  split; [reflexivity|].
  destruct (copy_outlives_original Door.States Door.Event Door.handle_of
              Door.onEnter_of Door.onLeave_of Door.door2 Door.door
              (Door.UnlockEvent 1234%Z) locked_door
              (Door.door_object 1234%Z Door.Locked) Door.Locked
              (door_world_well_formed 1234%Z Door.Locked (Nat.lt_succ_diag_r 2))
              door_handlers_compile eq_refl
              (conj (Nat.lt_succ_diag_r 2) eq_refl) eq_refl)
    as (w1 & w2 & w3 & Hcopy & Hdtor & Hgone & _ & _ & _ & _ & Hh).
  exists w1, w2, w3. split; [exact Hcopy|]. split; [exact Hdtor|].
  split; [exact Hgone|exact Hh].
Defined.

(** The locked door copied to a second and from there to a third address. *)
Lemma copy_of_copy_witness :
  3%positive <> Door.door2 /\
  exists w1 w2 w2',
    StateMachine_copy Door.States Door.Event Door.door2 Door.door locked_door
      = Some (tt, w1) /\
    StateMachine_copy Door.States Door.Event 3%positive Door.door2 w1
      = Some (tt, w2) /\
    StateMachine_copy Door.States Door.Event 3%positive Door.door locked_door
      = Some (tt, w2') /\
    heap w2 !! 3%positive = heap w2' !! 3%positive.
Proof.
  assert (Hne : 3%positive <> Door.door2) by discriminate.
  split; [exact Hne|].
  destruct (copy_of_copy Door.States Door.Event 3%positive Door.door2 Door.door
              locked_door (Door.door_object 1234%Z Door.Locked) eq_refl
              (Nat.lt_succ_diag_r 2) eq_refl eq_refl Hne)
    as (w1 & w2 & w2' & H1 & H2 & H3 & H4 & H5 & _).
  exists w1, w2, w2'. split; [exact H1|]. split; [exact H2|].
  split; [exact H3|]. exact (eq_trans H4 (eq_sym H5)).
Defined.

(** Assigning the first door to the second and back. *)
Lemma copy_assign_round_trip_witness :
  Door.door <> Door.door2 /\
  exists w1 w2 w1',
    copy_assign Door.States Door.Event Door.door2 Door.door Door.two_doors
      = Some (Door.door2, w1) /\
    copy_assign Door.States Door.Event Door.door Door.door2 w1
      = Some (Door.door, w2) /\
    heap w2 !! Door.door = Some (Door.door_object 0x11%Z Door.Closed) /\
    copy_assign Door.States Door.Event Door.door2 Door.door w1
      = Some (Door.door2, w1') /\
    heap w1' = heap w1.
Proof.
  assert (Hne : Door.door <> Door.door2) by discriminate.
  split; [exact Hne|].
  destruct (copy_assign_round_trip Door.States Door.Event Door.door Door.door2
              Door.two_doors (Door.door_object 0x11%Z Door.Closed)
              (Door.object_at Door.door2 0x22%Z Door.Closed) Door.Closed
              Hne eq_refl (conj (Nat.lt_0_succ 2) eq_refl) eq_refl)
    as (w1 & w2 & w1' & H1 & H2 & H3 & _ & _ & H4 & H5).
  exists w1, w2, w1'. split; [exact H1|]. split; [exact H2|].
  split; [exact H3|]. split; [exact H4|exact H5].
Defined.

(** An engine type without states, and a self-assignment as only call. *)
Lemma no_engine_without_states_witness :
  size [] = 0 /\
  run [] unit (fun _ _ _ => None) (fun _ _ => None) (fun _ _ => None)
    (fun t => t) [CopyAssign [] unit 1%positive 1%positive] (start [] unit)
    = Some (tt, start [] unit) /\
  heap (start [] unit) = ∅.
Proof.
  assert (H1 : size [] = 0) by reflexivity.
  assert (H2 : run [] unit (fun _ _ _ => None) (fun _ _ => None)
                 (fun _ _ => None) (fun t => t)
                 [CopyAssign [] unit 1%positive 1%positive] (start [] unit)
               = Some (tt, start [] unit)) by reflexivity.
  split; [exact H1|]. split; [exact H2|].
  exact (no_engine_without_states [] unit (fun _ _ _ => None) (fun _ _ => None)
           (fun _ _ => None) (fun t => t)
           [CopyAssign [] unit 1%positive 1%positive] (start [] unit) H1 H2).
Defined.

(** [Nothing] into [OneOf<TransitionTo<ClosedState>, Nothing>]. *)
Lemma OneOf_ctor_unambiguous_witness :
  [TTransitionTo Door.Closed; TNothing] !! 1 = Some (type_of Nothing) /\
  OneOf_ctor [TTransitionTo Door.Closed; TNothing] Nothing
    = Some (OneOf [TTransitionTo Door.Closed; TNothing] 1 Nothing).
Proof.
  split; [reflexivity|].
  apply (OneOf_ctor_unambiguous [TTransitionTo Door.Closed; TNothing] Nothing 1).
  - reflexivity.
  - reflexivity.
  - intros [|[|j]] Hj; [discriminate Hj|reflexivity|discriminate Hj].
Defined.

(** [Nothing] into [OneOf<Nothing, Nothing>]. *)
Lemma OneOf_ctor_ambiguous_witness :
  0 <> 1 /\ OneOf_ctor [TNothing; TNothing] Nothing = None.
Proof.
  assert (Hne : 0 <> 1) by discriminate.
  split; [exact Hne|].
  exact (proj1 (OneOf_ctor_ambiguous [TNothing; TNothing] Nothing 0 1 Hne
                  eq_refl eq_refl)).
Defined.

(** The three events of [main] followed on the diagram. *)
Lemma door_runs_as_diagram_witness :
  Door.steps Door.Closed 0x11%Z
    [Door.LockEvent 1234%Z; Door.UnlockEvent 2%Z; Door.UnlockEvent 1234%Z]
  = (Door.Closed, 1234%Z) /\
  exists w',
    run Door.States Door.Event Door.handle_of Door.onEnter_of Door.onLeave_of
      Door.moved_from
      (map (Handle Door.States Door.Event Door.door)
         [Door.LockEvent 1234%Z; Door.UnlockEvent 2%Z; Door.UnlockEvent 1234%Z])
      closed_door = Some (tt, w') /\
    heap w' !! Door.door = Some (Door.door_object 1234%Z Door.Closed).
Proof.
  split; [reflexivity|].
  destruct (door_runs_as_diagram
              [Door.LockEvent 1234%Z; Door.UnlockEvent 2%Z; Door.UnlockEvent 1234%Z]
              Door.Closed 0x11%Z closed_door eq_refl (Nat.lt_0_succ 2))
    as (w' & Hrun & _ & Hheap).
  exists w'. split; [exact Hrun|].
  exact (eq_trans (f_equal (fun h => h !! Door.door) Hheap) eq_refl).
Defined.

(** The locked door given everything but the right key. *)
Lemma locked_door_stays_locked_witness :
  Forall (fun e => e <> Door.UnlockEvent 1234%Z)
    [Door.OpenEvent; Door.UnlockEvent 2%Z; Door.LockEvent 7%Z; Door.CloseEvent] /\
  exists w',
    run Door.States Door.Event Door.handle_of Door.onEnter_of Door.onLeave_of
      Door.moved_from
      (map (Handle Door.States Door.Event Door.door)
         [Door.OpenEvent; Door.UnlockEvent 2%Z; Door.LockEvent 7%Z; Door.CloseEvent])
      locked_door = Some (tt, w') /\
    heap w' = heap locked_door.
Proof.
  assert (H : Forall (fun e => e <> Door.UnlockEvent 1234%Z)
                [Door.OpenEvent; Door.UnlockEvent 2%Z; Door.LockEvent 7%Z;
                 Door.CloseEvent])
    by (repeat constructor; discriminate).
  split; [exact H|].
  exact (locked_door_stays_locked _ 1234%Z locked_door eq_refl H).
Defined.

(** Locking with 1234, trying 2, unlocking with 1234. *)
Lemma lock_unlock_round_trip_witness :
  2%Z <> 1234%Z /\
  exists w1 w2 w3,
    Door.door_handle (Door.LockEvent 1234%Z) closed_door = Some (tt, w1) /\
    heap w1 !! Door.door = Some (Door.door_object 1234%Z Door.Locked) /\
    Door.door_handle (Door.UnlockEvent 2%Z) w1 = Some (tt, w2) /\
    heap w2 = heap w1 /\
    Door.door_handle (Door.UnlockEvent 1234%Z) w2 = Some (tt, w3) /\
    heap w3 !! Door.door = Some (Door.door_object 1234%Z Door.Closed).
Proof.
  assert (Hne : 2%Z <> 1234%Z) by discriminate.
  split; [exact Hne|].
  exact (lock_unlock_round_trip 0x11%Z 1234%Z 2%Z closed_door eq_refl Hne).
Defined.

(** The locked door, its handlers taken as handlers that leave their state
    as it is, refusing [Unlock(2)]. *)
Lemma const_handler_Nothing_unchanged_witness :
  NonConst.const_handlers Door.handle_of Door.Locked
    (get Door.Locked (states (Door.door_object 1234%Z Door.Locked)))
    (Door.UnlockEvent 2%Z)
  = Some (OneOf [TTransitionTo Door.Closed; TNothing] 1 Nothing,
          get Door.Locked (states (Door.door_object 1234%Z Door.Locked))) /\
  held_action (OneOf [TTransitionTo Door.Closed; TNothing] 1 Nothing) = Nothing /\
  NonConst.handle Door.States Door.Event (NonConst.const_handlers Door.handle_of)
    Door.onEnter_of Door.onLeave_of Door.door (Door.UnlockEvent 2%Z) locked_door
  = Some (tt, mkWorld (heap locked_door)
                [ObsHandle Door.door (Door.UnlockEvent 2%Z)]).
Proof.
  split; [reflexivity|]. split; [reflexivity|].
  apply (const_handler_Nothing_unchanged Door.States Door.Event
           (NonConst.const_handlers Door.handle_of) Door.onEnter_of
           Door.onLeave_of Door.door (Door.UnlockEvent 2%Z) locked_door
           (Door.door_object 1234%Z Door.Locked) Door.Locked
           (OneOf [TTransitionTo Door.Closed; TNothing] 1 Nothing)).
  - reflexivity.
  - split; [vm_compute; lia|reflexivity].
  - reflexivity.
  - reflexivity.
Defined.

(** The tally handling one event: no transition, and a state that counted. *)
Lemma handle_at_most_one_transition_witness :
  Tally.handle tt (Tally.world 5) = Some (tt, Tally.counted 5) /\
  exists action s',
    Tally.handle_of 0 (get 0 (states (Tally.object 5))) tt = Some (action, s') /\
    ((heap (Tally.counted 5)
        = <[Tally.tally := NonConst.handled Tally.States 0 s' (Tally.object 5)]>
            (heap (Tally.world 5)) /\
      trace (Tally.counted 5)
        = trace (Tally.world 5) ++ [ObsHandle Tally.tally tt]) \/
     (exists T, T < size Tally.States /\
        heap (Tally.counted 5)
          = <[Tally.tally := transitioned Tally.States unit Tally.no_hook
                               Tally.no_hook Tally.tally 0 T tt
                               (NonConst.handled Tally.States 0 s' (Tally.object 5))]>
              (heap (Tally.world 5)) /\
        trace (Tally.counted 5)
          = trace (Tally.world 5)
            ++ transition_observed Tally.States unit Tally.no_hook Tally.no_hook
                 Tally.tally Tally.tally 0 T tt)).
Proof.
  assert (H : Tally.handle tt (Tally.world 5) = Some (tt, Tally.counted 5))
    by (vm_compute; reflexivity).
  split; [exact H|].
  destruct (handle_at_most_one_transition Tally.States unit Tally.handle_of
              Tally.no_hook Tally.no_hook Tally.tally tt (Tally.world 5)
              (Tally.counted 5) (Tally.object 5) 0 eq_refl
              (conj (Nat.lt_0_succ 0) eq_refl) H)
    as (action & s' & Hh & _ & Hcases).
  exists action, s'. split; [exact Hh|exact Hcases].
Defined.

(** The third element of a tuple of three different types. *)
Lemma runtime_get_characterised_witness :
  NoDup [0; 1; 2] /\
  TupleLike.runtime_get (TupleLike.std_tuple [0; 1; 2]) 1%positive 2
    = Some (mkVariant 2 (address_of 1%positive 2)).
Proof.
  assert (Hnd : NoDup [0; 1; 2])
    by (apply (bool_decide_unpack (NoDup [0; 1; 2])); vm_compute; exact I).
  split; [exact Hnd|].
  apply (proj1 (proj2 (runtime_get_characterised [0; 1; 2] 1%positive 2 Hnd
                         ltac:(discriminate)))).
  split; [simpl; lia|reflexivity].
Defined.

(** A tuple whose first and third elements have the same type. *)
Lemma runtime_get_repeated_type_witness :
  ~ NoDup [0; 1; 0] /\
  TupleLike.runtime_get (TupleLike.std_tuple [0; 1; 0]) 1%positive 1 = None.
Proof.
  assert (Hd : ~ NoDup [0; 1; 0])
    by (apply (bool_decide_unpack (~ NoDup [0; 1; 0])); vm_compute; exact I).
  split; [exact Hd|].
  exact (proj1 (runtime_get_repeated_type [0; 1; 0] Hd) 1%positive 1).
Defined.
